(** * ModelViewer: the telemetry-driven orientation pipeline of [src/App.tsx]

    A shallow embedding of the [Scene] and [App] components.  React state is
    a record, every event handler is a function on that record, the browser
    objects the component talks to (EventSource instances, pending [fetch]
    promises, the console) live in an explicit [World], and the [useEffect]
    that owns the connection is run by an explicit commit loop.

    JavaScript numbers are IEEE-754 binary64 values; they are modelled by
    Rocq's primitive floats, whose operations are the same binary64
    operations. *)

From Stdlib Require Import ZArith Ascii String.
From Stdlib Require Import Floats.PrimFloat Floats.SpecFloat Floats.FloatOps.
From stdpp Require Import base option list strings.

Local Open Scope string_scope.

(** ** JavaScript values and completions *)

Module JS.

(** Errors the modelled code can meet. *)
Inductive Error :=
| SyntaxError          (* JSON.parse on text that is not JSON *)
| TypeError            (* property read on null or undefined *)
| NetworkError.        (* a fetch that never got a response *)

(** How the evaluation of a statement list ends. *)
Inductive Completion (A : Type) :=
| Normal (a : A)
| Throw (e : Error).
Arguments Normal {A} a.
Arguments Throw {A} e.

Definition bind {A B} (c : Completion A) (k : A -> Completion B) : Completion B :=
  match c with
  | Normal a => k a
  | Throw e => Throw e
  end.

#[local] Set Warnings "-register-all".

(** What [JSON.parse] can return, plus [undefined], which only a property
    read produces. *)
Inductive Value :=
| Undefined
| Null
| Bool (b : bool)
| Num (n : float)
| Str (s : string)
| Arr (items : list Value)
| Obj (fields : list (string * Value)).

(** The own property [k] of a parsed object: the last binding of [k] in
    source order wins, an absent key reads as [undefined]. *)
Definition own (fields : list (string * Value)) (k : string) : Value :=
  match find (fun kv => String.eqb (fst kv) k) (rev fields) with
  | Some (_, v) => v
  | None => Undefined
  end.

(** [v.k] for a key [k] that no built-in prototype defines (such as [x],
    [y] and [z]): reading through [null] or [undefined] throws, a
    primitive or an array has no such property. *)
Definition get (v : Value) (k : string) : Completion Value :=
  match v with
  | Undefined | Null => Throw TypeError
  | Obj fields => Normal (own fields k)
  | Bool _ | Num _ | Str _ | Arr _ => Normal Undefined
  end.

(** Truthiness of a [string | null] and of a [string | undefined]. *)
Definition truthy (s : option string) : bool :=
  match s with
  | Some s => negb (String.eqb s "")
  | None => false
  end.

(** [s || d] on a [string | undefined]. *)
Definition or_else (s : option string) (d : string) : string :=
  match s with
  | Some s => if String.eqb s "" then d else s
  | None => d
  end.

(** A settled promise. *)
Inductive Settled (A : Type) :=
| Fulfilled (a : A)
| Rejected (e : Error).
Arguments Fulfilled {A} a.
Arguments Rejected {A} e.

End JS.

(** ** A reader for JSON text

    [JSON.parse] is the platform's; [App] below takes it as a parameter.
    This reader of the JSON grammar (RFC 8259) instantiates the parameter
    wherever a statement is run on a concrete payload.  Numbers are rounded
    to the nearest binary64 value, strings are kept as UTF-8 bytes (a
    [\u] escape contributes the bytes of its code unit). *)

Module JSONText.

Definition is_ws (c : ascii) : bool :=
  (Ascii.eqb c " " || Ascii.eqb c "009" || Ascii.eqb c "010" || Ascii.eqb c "013")%char.

Fixpoint skip_ws (s : string) : string :=
  match s with
  | String c r => if is_ws c then skip_ws r else s
  | EmptyString => s
  end.

Definition digit (c : ascii) : option Z :=
  let n := Z.of_N (Ascii.N_of_ascii c) in
  if ((48 <=? n) && (n <=? 57))%Z then Some (n - 48)%Z else None.

(** Decimal digits: their value on top of [acc], how many, the rest. *)
Fixpoint digits (s : string) (acc : Z) (count : Z) : Z * Z * string :=
  match s with
  | String c r =>
      match digit c with
      | Some d => digits r (10 * acc + d)%Z (count + 1)%Z
      | None => (acc, count, s)
      end
  | EmptyString => (acc, count, s)
  end.

(** The binary64 value nearest to [m * 10 ^ e], ties to even. *)
Definition decimal (negative : bool) (m e : Z) : float :=
  let sign z := if negative then (- z)%Z else z in
  if (m =? 0)%Z then SF2Prim (S754_zero negative)
  else if (0 <=? e)%Z then
    SF2Prim (binary_normalize prec emax (sign (m * 10 ^ e)%Z) 0 negative)
  else
    let d := (10 ^ (- e))%Z in
    let shift := Z.max 0 (64 + Z.log2 d - Z.log2 m)%Z in
    let n := Z.shiftl m shift in
    let q := (n / d)%Z in
    let sticky := if (n mod d =? 0)%Z then 0%Z else 1%Z in
    SF2Prim (binary_normalize prec emax (sign (2 * q + sticky)%Z) (- shift - 1) negative).

(** number = [-] int [frac] [exp] *)
Definition number (s : string) : option (float * string) :=
  let '(negative, s) :=
    match s with
    | String "-" r => (true, r)
    | _ => (false, s)
    end in
  let '(int, n_int, s1) := digits s 0%Z 0%Z in
  let leading_zero := match s with String "0" _ => true | _ => false end in
  if (n_int =? 0)%Z || (leading_zero && (1 <? n_int)%Z) then None else
  let frac :=
    match s1 with
    | String "." r =>
        let '(m, n_frac, s2) := digits r int 0%Z in
        if (n_frac =? 0)%Z then None else Some (m, n_frac, s2)
    | _ => Some (int, 0%Z, s1)
    end in
  '(m, n_frac, s2) ← frac;
  let exp :=
    match s2 with
    | String c r =>
        if (Ascii.eqb c "e" || Ascii.eqb c "E")%char then
          let '(neg_e, r) :=
            match r with
            | String "-" r' => (true, r')
            | String "+" r' => (false, r')
            | _ => (false, r)
            end in
          let '(e, n_e, s3) := digits r 0%Z 0%Z in
          if (n_e =? 0)%Z then None else Some (if neg_e then (- e)%Z else e, s3)
        else Some (0%Z, s2)
    | EmptyString => Some (0%Z, s2)
    end in
  '(e, s3) ← exp;
  Some (decimal negative m (e - n_frac), s3).

Definition hex (c : ascii) : option N :=
  let n := Ascii.N_of_ascii c in
  if ((48 <=? n) && (n <=? 57))%N then Some (n - 48)%N
  else if ((65 <=? n) && (n <=? 70))%N then Some (n - 55)%N
  else if ((97 <=? n) && (n <=? 102))%N then Some (n - 87)%N
  else None.

(** The UTF-8 bytes of a 16-bit code unit. *)
Definition utf8 (u : N) : string :=
  let byte n := String (Ascii.ascii_of_N n) EmptyString in
  if (u <? 128)%N then byte u
  else if (u <? 2048)%N then byte (192 + u / 64)%N +:+ byte (128 + u mod 64)%N
  else byte (224 + u / 4096)%N +:+ byte (128 + (u / 64) mod 64)%N
       +:+ byte (128 + u mod 64)%N.

(** The characters of a string after its opening quote. *)
Fixpoint chars (s : string) : option (string * string) :=
  match s with
  | EmptyString => None
  | String "034" r => Some (EmptyString, r)
  | String "092" (String "u" (String a (String b (String c (String d r))))) =>
      a ← hex a; b ← hex b; c ← hex c; d ← hex d;
      '(t, rest) ← chars r;
      Some (utf8 (((a * 16 + b) * 16 + c) * 16 + d)%N +:+ t, rest)
  | String "092" (String e r) =>
      c ← (if Ascii.eqb e "034" then Some "034"
           else if Ascii.eqb e "092" then Some "092"
           else if Ascii.eqb e "/" then Some "/"
           else if Ascii.eqb e "b" then Some "008"
           else if Ascii.eqb e "f" then Some "012"
           else if Ascii.eqb e "n" then Some "010"
           else if Ascii.eqb e "r" then Some "013"
           else if Ascii.eqb e "t" then Some "009"
           else None)%char;
      '(t, rest) ← chars r;
      Some (String c t, rest)
  | String c r =>
      if (Ascii.N_of_ascii c <? 32)%N then None
      else '(t, rest) ← chars r; Some (String c t, rest)
  end.

Definition literal (word : string) (v : JS.Value) (s : string) : option (JS.Value * string) :=
  if String.prefix word s
  then Some (v, String.substring (String.length word) (String.length s - String.length word) s)
  else None.

Fixpoint value (fuel : nat) (s : string) : option (JS.Value * string) :=
  match fuel with
  | O => None
  | S fuel =>
      match skip_ws s with
      | String "{" r =>
          match skip_ws r with
          | String "}" r' => Some (JS.Obj [], r')
          | r' => '(fields, rest) ← members fuel r'; Some (JS.Obj fields, rest)
          end
      | String "[" r =>
          match skip_ws r with
          | String "]" r' => Some (JS.Arr [], r')
          | r' => '(items, rest) ← elements fuel r'; Some (JS.Arr items, rest)
          end
      | String "034" r => '(t, rest) ← chars r; Some (JS.Str t, rest)
      | String "t" _ as s' => literal "true" (JS.Bool true) s'
      | String "f" _ as s' => literal "false" (JS.Bool false) s'
      | String "n" _ as s' => literal "null" JS.Null s'
      | s' => '(n, rest) ← number s'; Some (JS.Num n, rest)
      end
  end
with elements (fuel : nat) (s : string) : option (list JS.Value * string) :=
  match fuel with
  | O => None
  | S fuel =>
      '(v, s1) ← value fuel s;
      match skip_ws s1 with
      | String "," r => '(vs, rest) ← elements fuel r; Some (v :: vs, rest)
      | String "]" r => Some ([v], r)
      | _ => None
      end
  end
with members (fuel : nat) (s : string) : option (list (string * JS.Value) * string) :=
  match fuel with
  | O => None
  | S fuel =>
      match skip_ws s with
      | String "034" r =>
          '(k, s1) ← chars r;
          match skip_ws s1 with
          | String ":" s2 =>
              '(v, s3) ← value fuel s2;
              match skip_ws s3 with
              | String "," r' => '(kvs, rest) ← members fuel r'; Some ((k, v) :: kvs, rest)
              | String "}" r' => Some ([(k, v)], r')
              | _ => None
              end
          | _ => None
          end
      | _ => None
      end
  end.

(** The whole text must be one value.  Of two nested calls at least one
    consumes a character, so two units of fuel per character are enough. *)
Definition parse (text : string) : JS.Completion JS.Value :=
  match value (2 * String.length text + 2) text with
  | Some (v, rest) =>
      match skip_ws rest with
      | EmptyString => JS.Normal v
      | _ => JS.Throw JS.SyntaxError
      end
  | None => JS.Throw JS.SyntaxError
  end.

End JSONText.

(** ** Numbers *)

Definition Vec3 : Type := float * float * float.

(** [Math.PI], the binary64 value nearest to pi. *)
Definition Math_PI : float := 0x1.921fb54442d18p+1%float.

(** ** Telemetry samples *)

Record GyroData := {
  gyro_x : float;
  gyro_y : float;
  gyro_z : float
}.

(** The interface is structural and erased at run time: a parsed value is
    a [GyroData] when it is an object whose [x], [y] and [z] are numbers. *)
Definition as_GyroData (v : JS.Value) : option GyroData :=
  match v with
  | JS.Obj fields =>
      match JS.own fields "x", JS.own fields "y", JS.own fields "z" with
      | JS.Num x, JS.Num y, JS.Num z => Some {| gyro_x := x; gyro_y := y; gyro_z := z |}
      | _, _, _ => None
      end
  | _ => None
  end.

(** ** The [Scene] component *)

Record SceneProps := {
  p_modelRotation : option Vec3;     (* modelRotation?: [number, number, number] *)
  p_gltf : option string;            (* gltf?: string *)
  p_modelScale : float;
  p_rotation : Vec3
}.

(** What the canvas shows: [<Box>] or the loaded [<primitive>] inside
    [<Center>], each with a [rotation] and a [scale] attribute. *)
Inductive Geometry :=
| Box
| Primitive (url : string).

Record Rendered := {
  r_geometry : Geometry;
  r_rotation : Vec3;
  r_scale : float
}.

Definition unifiedRotation (rotation modelRotation : Vec3) : Vec3 :=
  let '(r0, r1, r2) := rotation in
  let '(m0, m1, m2) := modelRotation in
  ((r0 + m0)%float, (r1 + m1)%float, (r2 + m2)%float).

Definition Scene (props : SceneProps) : Rendered :=
  let modelRotation := default (0%float, 0%float, 0%float) (p_modelRotation props) in
  let unified := unifiedRotation (p_rotation props) modelRotation in
  let scene := JS.or_else (p_gltf props) "/test.glb" in   (* what useGLTF loads *)
  if JS.truthy (p_gltf props)
  then {| r_geometry := Primitive scene;
          r_rotation := unified;
          r_scale := p_modelScale props |}
  else {| r_geometry := Box;
          r_rotation := unified;
          r_scale := p_modelScale props |}.

(** ** The browser objects the component uses *)

Inductive ReadyState := CONNECTING | OPEN | CLOSED.

Record EventSourceObj := {
  es_url : string;
  es_readyState : ReadyState
}.

(** The handlers chained on a [fetch] promise, with the variables their
    closures captured. *)
Inductive Chain :=
| ResetChain                            (* .catch((e) => console.error(e)) *)
| UploadChain (connectionUrl : string). (* .then((res) => ...).catch() *)

Record Request := {
  rq_method : string;
  rq_url : string;
  rq_body : option string;              (* the form field [model]: the chosen file *)
  rq_chain : Chain;
  rq_pending : bool
}.

(** Calls on the transport, newest first. *)
Inductive Call :=
| NewEventSource (id : nat) (url : string)
| CloseEventSource (id : nat)
| Fetch (id : nat) (method url : string).

(** What reaches the console. *)
Inductive Report :=
| ConsoleLog (msg : string)
| ConsoleError (e : JS.Error)
| UncaughtError (e : JS.Error)          (* an exception that left a listener *)
| UnhandledRejection (e : JS.Error).    (* a rejected promise nobody handled *)

Record World := {
  sources : list EventSourceObj;        (* an EventSource is its index here *)
  requests : list Request;              (* a fetch is its index here *)
  calls : list Call;
  console : list Report
}.

Definition emptyWorld : World :=
  {| sources := []; requests := []; calls := []; console := [] |}.

Definition set_closed (es : EventSourceObj) : EventSourceObj :=
  {| es_url := es_url es; es_readyState := CLOSED |}.

Definition set_readyState (r : ReadyState) (es : EventSourceObj) : EventSourceObj :=
  {| es_url := es_url es; es_readyState := r |}.

(** [new EventSource(url)]: a fresh object, connecting. *)
Definition new_EventSource (url : string) (w : World) : nat * World :=
  let id := length (sources w) in
  (id, {| sources := sources w ++ [{| es_url := url; es_readyState := CONNECTING |}];
          requests := requests w;
          calls := NewEventSource id url :: calls w;
          console := console w |}).

(** [source.close()]. *)
Definition close (id : nat) (w : World) : World :=
  {| sources := alter set_closed id (sources w);
     requests := requests w;
     calls := CloseEventSource id :: calls w;
     console := console w |}.

(** [fetch(url, {method, body})] with the handlers [chain] attached. *)
Definition fetch (method url : string) (body : option string) (chain : Chain)
    (w : World) : World :=
  let id := length (requests w) in
  {| sources := sources w;
     requests := requests w ++ [{| rq_method := method; rq_url := url; rq_body := body;
                                   rq_chain := chain; rq_pending := true |}];
     calls := Fetch id method url :: calls w;
     console := console w |}.

Definition report (r : Report) (w : World) : World :=
  {| sources := sources w; requests := requests w; calls := calls w;
     console := r :: console w |}.

Definition with_sources (f : list EventSourceObj -> list EventSourceObj) (w : World) : World :=
  {| sources := f (sources w); requests := requests w; calls := calls w;
     console := console w |}.

Definition settle_request (rq : Request) : Request :=
  {| rq_method := rq_method rq; rq_url := rq_url rq; rq_body := rq_body rq;
     rq_chain := rq_chain rq; rq_pending := false |}.

Definition with_requests (f : list Request -> list Request) (w : World) : World :=
  {| sources := sources w; requests := f (requests w); calls := calls w;
     console := console w |}.

Definition is_closed (r : ReadyState) : bool :=
  match r with CLOSED => true | _ => false end.

(** The connections that are not closed. *)
Definition open_sources (w : World) : list EventSourceObj :=
  filter (fun es => is_closed (es_readyState es) = false) (sources w).

(** ** The state of [App] *)

Definition Triple : Type := JS.Value * JS.Value * JS.Value.

Record AppState := {
  connectionDialogOpen : bool;
  modelDialogOpen : bool;
  connectionUrl : string;
  changeConnectionUrl : bool;
  modelRotation : Vec3;
  modelScale : float;
  (* declared [number, number, number], but written from [JSON.parse]'s
     untyped result: what is stored is whatever the payload held *)
  rotation : Triple;
  model : option string;
  eventSource : option nat;
  connectionError : option string
}.

Definition setConnectionDialogOpen (b : bool) (s : AppState) : AppState :=
  {| connectionDialogOpen := b; modelDialogOpen := modelDialogOpen s;
     connectionUrl := connectionUrl s; changeConnectionUrl := changeConnectionUrl s;
     modelRotation := modelRotation s; modelScale := modelScale s;
     rotation := rotation s; model := model s; eventSource := eventSource s;
     connectionError := connectionError s |}.

Definition setModelDialogOpen (b : bool) (s : AppState) : AppState :=
  {| connectionDialogOpen := connectionDialogOpen s; modelDialogOpen := b;
     connectionUrl := connectionUrl s; changeConnectionUrl := changeConnectionUrl s;
     modelRotation := modelRotation s; modelScale := modelScale s;
     rotation := rotation s; model := model s; eventSource := eventSource s;
     connectionError := connectionError s |}.

Definition setConnectionUrl (u : string) (s : AppState) : AppState :=
  {| connectionDialogOpen := connectionDialogOpen s; modelDialogOpen := modelDialogOpen s;
     connectionUrl := u; changeConnectionUrl := changeConnectionUrl s;
     modelRotation := modelRotation s; modelScale := modelScale s;
     rotation := rotation s; model := model s; eventSource := eventSource s;
     connectionError := connectionError s |}.

Definition setChangeConnectionUrl (b : bool) (s : AppState) : AppState :=
  {| connectionDialogOpen := connectionDialogOpen s; modelDialogOpen := modelDialogOpen s;
     connectionUrl := connectionUrl s; changeConnectionUrl := b;
     modelRotation := modelRotation s; modelScale := modelScale s;
     rotation := rotation s; model := model s; eventSource := eventSource s;
     connectionError := connectionError s |}.

(** The setters that take an updater function ([prevState => ...]). *)
Definition setModelRotation (f : Vec3 -> Vec3) (s : AppState) : AppState :=
  {| connectionDialogOpen := connectionDialogOpen s; modelDialogOpen := modelDialogOpen s;
     connectionUrl := connectionUrl s; changeConnectionUrl := changeConnectionUrl s;
     modelRotation := f (modelRotation s); modelScale := modelScale s;
     rotation := rotation s; model := model s; eventSource := eventSource s;
     connectionError := connectionError s |}.

Definition setModelScale (f : float -> float) (s : AppState) : AppState :=
  {| connectionDialogOpen := connectionDialogOpen s; modelDialogOpen := modelDialogOpen s;
     connectionUrl := connectionUrl s; changeConnectionUrl := changeConnectionUrl s;
     modelRotation := modelRotation s; modelScale := f (modelScale s);
     rotation := rotation s; model := model s; eventSource := eventSource s;
     connectionError := connectionError s |}.

Definition setRotation (r : Triple) (s : AppState) : AppState :=
  {| connectionDialogOpen := connectionDialogOpen s; modelDialogOpen := modelDialogOpen s;
     connectionUrl := connectionUrl s; changeConnectionUrl := changeConnectionUrl s;
     modelRotation := modelRotation s; modelScale := modelScale s;
     rotation := r; model := model s; eventSource := eventSource s;
     connectionError := connectionError s |}.

Definition setModel (m : option string) (s : AppState) : AppState :=
  {| connectionDialogOpen := connectionDialogOpen s; modelDialogOpen := modelDialogOpen s;
     connectionUrl := connectionUrl s; changeConnectionUrl := changeConnectionUrl s;
     modelRotation := modelRotation s; modelScale := modelScale s;
     rotation := rotation s; model := m; eventSource := eventSource s;
     connectionError := connectionError s |}.

Definition setEventSource (e : option nat) (s : AppState) : AppState :=
  {| connectionDialogOpen := connectionDialogOpen s; modelDialogOpen := modelDialogOpen s;
     connectionUrl := connectionUrl s; changeConnectionUrl := changeConnectionUrl s;
     modelRotation := modelRotation s; modelScale := modelScale s;
     rotation := rotation s; model := model s; eventSource := e;
     connectionError := connectionError s |}.

Definition setConnectionError (e : option string) (s : AppState) : AppState :=
  {| connectionDialogOpen := connectionDialogOpen s; modelDialogOpen := modelDialogOpen s;
     connectionUrl := connectionUrl s; changeConnectionUrl := changeConnectionUrl s;
     modelRotation := modelRotation s; modelScale := modelScale s;
     rotation := rotation s; model := model s; eventSource := eventSource s;
     connectionError := e |}.

(** The component with the browser around it. *)
Definition Store : Type := AppState * World.

(** ** Promise chaining *)

(** [p.then(onFulfilled)]: the callback runs on fulfilment, a rejection
    passes through to the promise that [then] returns. *)
Definition promise_then {A B} (p : JS.Settled A) (onFulfilled : A -> Store -> Store * B)
    (s : Store) : Store * JS.Settled B :=
  match p with
  | JS.Fulfilled a => let '(s', b) := onFulfilled a s in (s', JS.Fulfilled b)
  | JS.Rejected e => (s, JS.Rejected e)
  end.

(** [p.catch(onRejected)], which is [p.then(undefined, onRejected)]: with
    no callable argument the returned promise settles the way [p] did. *)
Definition promise_catch {A B} (p : JS.Settled A)
    (onRejected : option (JS.Error -> Store -> Store * B))
    (s : Store) : Store * JS.Settled (A + B) :=
  match p, onRejected with
  | JS.Fulfilled a, _ => (s, JS.Fulfilled (inl a))
  | JS.Rejected e, Some handler => let '(s', b) := handler e s in (s', JS.Fulfilled (inr b))
  | JS.Rejected e, None => (s, JS.Rejected e)
  end.

(** A promise that ends a chain: a rejection nobody handled is reported by
    the browser. *)
Definition end_of_chain {A} (r : Store * JS.Settled A) : Store :=
  match r with
  | (s, JS.Fulfilled _) => s
  | ((st, w), JS.Rejected e) => (st, report (UnhandledRejection e) w)
  end.

(** ** What can happen to the mounted component *)

Inductive Event :=
(* the menu bar *)
| SetupConnection
| ResetDevice
| LoadModel
| RotateX
| RotateY
| RotateZ
| ScaleUpTenth
| ScaleUpOne
| ScaleDownTenth
| ScaleDownOne
(* the connection dialog *)
| ConnectionDialogOpenChange (open : bool)
| ConnectionUrlInput (value : string)
| SetAndUse
| CancelAndReset
(* the model dialog *)
| ModelDialogOpenChange (open : bool)
| FileChange (file : option string)
| ModelSet
| ModelCancel
(* the browser: an EventSource fires, a fetch settles *)
| SourceOpen (source : nat)
| SourceError (source : nat) (fatal : bool)
| SourceData (source : nat) (data : string)
| Response (request : nat) (outcome : JS.Settled nat).

(** The dependency array of the connection effect. *)
Definition Deps : Type := string * bool * option nat.

Record Config := {
  store : Store;
  lastDeps : option Deps                (* the array of the effect's last run *)
}.

(** The parts of what [App] returns that the statements below read. *)
Record View := {
  v_errorText : option string;          (* the red <p> of the menu bar *)
  v_connectionDialog : bool;
  v_connectionUrlInput : string;
  v_modelDialog : bool;
  v_scene : option Rendered             (* [None]: [rotation] holds a non-number *)
}.

(** ** The [App] component *)

Section App.

(** [window.location.origin]. *)
Variable origin : string.

(** [JSON.parse], the platform's: text to value, or a [SyntaxError]. *)
Variable JSON_parse : string -> JS.Completion JS.Value.

Definition initialState : AppState :=
  {| connectionDialogOpen := false;
     modelDialogOpen := false;
     connectionUrl := origin;
     changeConnectionUrl := true;
     modelRotation := (0%float, 0%float, 0%float);
     modelScale := 1%float;
     rotation := (JS.Num 0, JS.Num 0, JS.Num 0);
     model := None;
     eventSource := None;
     connectionError := None |}.

(** *** The listeners the effect attaches to a new [source] *)

Definition openListener (s : Store) : Store :=
  (fst s, report (ConsoleLog "Connection established") (snd s)).

Definition errorListener (source : nat) (s : Store) : Store :=
  let st := setConnectionError (Some "Connection could not be established") (fst s) in
  (st, close source (snd s)).

Definition dataListener (event_data : string) (st : AppState) : JS.Completion AppState :=
  JS.bind (JSON_parse event_data) (fun data =>
  JS.bind (JS.get data "x") (fun x =>
  JS.bind (JS.get data "z") (fun z =>
  JS.bind (JS.get data "y") (fun y =>
  JS.Normal (setRotation (x, z, y) st))))).

(** *** The connection effect *)

Definition connectionEffect (s : Store) : Store :=
  let '(st, w) := s in
  if changeConnectionUrl st then
    let w := match eventSource st with
             | Some es => close es w
             | None => w
             end in
    let st := setConnectionError None st in
    let '(source, w) := new_EventSource (connectionUrl st +:+ "/events") w in
    let st := setEventSource (Some source) st in
    let st := setChangeConnectionUrl false st in
    (st, w)
  else (st, w).

(** *** The handlers of the menu and of the two dialogs *)

Definition half_pi : float := (Math_PI / 2)%float.

Definition onSetupConnection (st : AppState) : AppState :=
  setConnectionDialogOpen true st.

Definition onResetDevice (s : Store) : Store :=
  (fst s, fetch "GET" (connectionUrl (fst s) +:+ "/reset") None ResetChain (snd s)).

Definition onLoadModel (st : AppState) : AppState :=
  setModelDialogOpen true st.

Definition onRotateX (st : AppState) : AppState :=
  setModelRotation (fun prevState =>
    let '(p0, p1, p2) := prevState in ((p0 + half_pi)%float, p1, p2)) st.

Definition onRotateY (st : AppState) : AppState :=
  setModelRotation (fun prevState =>
    let '(p0, p1, p2) := prevState in (p0, (p1 + half_pi)%float, p2)) st.

Definition onRotateZ (st : AppState) : AppState :=
  setModelRotation (fun prevState =>
    let '(p0, p1, p2) := prevState in (p0, p1, (p2 + half_pi)%float)) st.

(** The decimal literal [0.1] denotes this binary64 value. *)
Definition tenth : float := 0x1.999999999999ap-4%float.

Definition onScaleUpTenth (st : AppState) : AppState :=
  setModelScale (fun prevState => (prevState + tenth)%float) st.

Definition onScaleUpOne (st : AppState) : AppState :=
  setModelScale (fun prevState => (prevState + 1)%float) st.

Definition onScaleDownTenth (st : AppState) : AppState :=
  setModelScale (fun prevState => (prevState - tenth)%float) st.

Definition onScaleDownOne (st : AppState) : AppState :=
  setModelScale (fun prevState => (prevState - 1)%float) st.

Definition onSetAndUse (st : AppState) : AppState :=
  setChangeConnectionUrl true (setConnectionDialogOpen false st).

Definition onCancelAndReset (st : AppState) : AppState :=
  setConnectionDialogOpen false (setConnectionUrl origin st).

(** The file input: nothing without a file, else the upload is sent. *)
Definition onFileChange (file : option string) (s : Store) : Store :=
  match file with
  | None => s
  | Some f =>
      let url := connectionUrl (fst s) in
      (fst s, fetch "POST" (url +:+ "/uploadModel") (Some f) (UploadChain url) (snd s))
  end.

Definition onModelSet (st : AppState) : AppState :=
  setModelDialogOpen false st.

Definition onModelCancel (st : AppState) : AppState :=
  setModelDialogOpen false (setModel None st).

(** *** The callbacks chained on the two requests *)

(** [.catch((e) => console.error(e))] on the reset request. *)
Definition resetChain (response : JS.Settled nat) (s : Store) : Store :=
  end_of_chain
    (promise_catch response
       (Some (fun e s => ((fst s, report (ConsoleError e) (snd s)), tt))) s).

(** [.then((res) => { if (res.status !== 404) setModel(...) }).catch()] on
    the upload, [connectionUrl] being the one of the render that sent it. *)
Definition uploadChain (connectionUrl : string) (response : JS.Settled nat)
    (s : Store) : Store :=
  let '(s1, p1) :=
    promise_then response
      (fun status s =>
         if negb (Nat.eqb status 404)
         then ((setModel (Some (connectionUrl +:+ "/model.glb")) (fst s), snd s), tt)
         else (s, tt)) s in
  end_of_chain (promise_catch (B := unit) p1 None s1).

(** *** Event dispatch *)

(** An EventSource that is closed fires nothing. *)
Definition when_live (source : nat) (k : Store -> Store) (s : Store) : Store :=
  match sources (snd s) !! source with
  | Some es => if is_closed (es_readyState es) then s else k s
  | None => s
  end.

Definition browser_sets (source : nat) (r : ReadyState) (s : Store) : Store :=
  (fst s, with_sources (alter (set_readyState r) source) (snd s)).

Definition lift (f : AppState -> AppState) (s : Store) : Store := (f (fst s), snd s).

Definition handle (e : Event) (s : Store) : Store :=
  match e with
  | SetupConnection => lift onSetupConnection s
  | ResetDevice => onResetDevice s
  | LoadModel => lift onLoadModel s
  | RotateX => lift onRotateX s
  | RotateY => lift onRotateY s
  | RotateZ => lift onRotateZ s
  | ScaleUpTenth => lift onScaleUpTenth s
  | ScaleUpOne => lift onScaleUpOne s
  | ScaleDownTenth => lift onScaleDownTenth s
  | ScaleDownOne => lift onScaleDownOne s
  | ConnectionDialogOpenChange b => lift (setConnectionDialogOpen b) s
  | ConnectionUrlInput value => lift (setConnectionUrl value) s
  | SetAndUse => lift onSetAndUse s
  | CancelAndReset => lift onCancelAndReset s
  | ModelDialogOpenChange b => lift (setModelDialogOpen b) s
  | FileChange file => onFileChange file s
  | ModelSet => lift onModelSet s
  | ModelCancel => lift onModelCancel s
  | SourceOpen source =>
      when_live source (fun s => openListener (browser_sets source OPEN s)) s
  | SourceError source fatal =>
      when_live source (fun s =>
        errorListener source
          (browser_sets source (if fatal then CLOSED else CONNECTING) s)) s
  | SourceData source data =>
      when_live source (fun s =>
        match dataListener data (fst s) with
        | JS.Normal st => (st, snd s)
        | JS.Throw err => (fst s, report (UncaughtError err) (snd s))
        end) s
  | Response request outcome =>
      match requests (snd s) !! request with
      | Some rq =>
          if rq_pending rq then
            let s := (fst s, with_requests (alter settle_request request) (snd s)) in
            match rq_chain rq with
            | ResetChain => resetChain outcome s
            | UploadChain url => uploadChain url outcome s
            end
          else s
      | None => s
      end
  end.

(** *** Rendering and the commit loop *)

Definition deps (st : AppState) : Deps :=
  (connectionUrl st, changeConnectionUrl st, eventSource st).

(** One render and commit: the effect runs when its dependencies differ
    from those of its last run (always, on mount). *)
Definition commit (c : Config) : Config :=
  let d := deps (fst (store c)) in
  if decide (lastDeps c = Some d) then c
  else {| store := connectionEffect (store c); lastDeps := Some d |}.

(** The effect sets state, which renders again; [fuel] bounds the rounds. *)
Fixpoint render_loop (fuel : nat) (c : Config) : Config :=
  match fuel with
  | O => c
  | S fuel => render_loop fuel (commit c)
  end.

Definition settle (c : Config) : Config := render_loop 2 c.

Definition mount : Config :=
  settle {| store := (initialState, emptyWorld); lastDeps := None |}.

Definition step (c : Config) (e : Event) : Config :=
  settle {| store := handle e (store c); lastDeps := lastDeps c |}.

Definition run (events : list Event) : Config := fold_left step events mount.

Definition numbers (r : Triple) : option Vec3 :=
  match r with
  | (JS.Num a, JS.Num b, JS.Num c) => Some (a, b, c)
  | _ => None
  end.

Definition render (st : AppState) : View :=
  {| v_errorText := if JS.truthy (connectionError st) then connectionError st else None;
     v_connectionDialog := connectionDialogOpen st;
     v_connectionUrlInput := connectionUrl st;
     v_modelDialog := modelDialogOpen st;
     v_scene :=
       base ← numbers (rotation st);
       Some (Scene {| p_modelRotation := Some (modelRotation st);
                      p_gltf := model st;
                      p_modelScale := modelScale st;
                      p_rotation := base |}) |}.

Definition app (c : Config) : AppState := fst (store c).
Definition world (c : Config) : World := snd (store c).

End App.

(** ** Reading the record of transport calls *)

(** The connections created and not closed since, after the [calls]. *)
Fixpoint live (calls : list Call) : list nat :=
  match calls with
  | [] => []
  | NewEventSource id _ :: older => id :: live older
  | CloseEventSource id :: older => filter (fun i => i <> id) (live older)
  | Fetch _ _ _ :: older => live older
  end.

(** Every [new EventSource] came when no connection was live. *)
Fixpoint closes_before_opening (calls : list Call) : Prop :=
  match calls with
  | [] => True
  | NewEventSource _ _ :: older => live older = [] /\ closes_before_opening older
  | _ :: older => closes_before_opening older
  end.

(** The endpoints of the connections ever created, newest first. *)
Fixpoint created (calls : list Call) : list string :=
  match calls with
  | [] => []
  | NewEventSource _ url :: older => url :: created older
  | _ :: older => created older
  end.

(** How an event changes the EventSource objects and the call record. *)
Inductive Touch (e : Event) (w w' : World) : Prop :=
| Untouched :
    sources w' = sources w -> calls w' = calls w -> Touch e w w'
| Fetched id method url :
    sources w' = sources w -> calls w' = Fetch id method url :: calls w -> Touch e w w'
| Announced source es :
    e = SourceOpen source ->
    sources w !! source = Some es -> is_closed (es_readyState es) = false ->
    sources w' = alter (set_readyState OPEN) source (sources w) ->
    calls w' = calls w -> Touch e w w'
| Failed source fatal es r :
    e = SourceError source fatal ->
    sources w !! source = Some es -> is_closed (es_readyState es) = false ->
    sources w' = alter set_closed source (alter (set_readyState r) source (sources w)) ->
    calls w' = CloseEventSource source :: calls w -> Touch e w w'.

(** The first statement of the effect: close the connection in state, if any. *)
Definition close_current (st : AppState) (w : World) : World :=
  match eventSource st with
  | Some es => close es w
  | None => w
  end.

(** What holds between two events, once the renders have settled. *)
Record quiescent (c : Config) : Prop := {
  q_change : changeConnectionUrl (app c) = false;
  q_deps : lastDeps c = Some (deps (app c));
  q_open : forall i es,
    sources (world c) !! i = Some es -> is_closed (es_readyState es) = false ->
    i ∈ live (calls (world c));
  q_live : forall i, i ∈ live (calls (world c)) -> eventSource (app c) = Some i;
  q_order : closes_before_opening (calls (world c));
  q_source : exists es,
    eventSource (app c) = Some es /\ es < length (sources (world c))
}.

(** No connection is open. *)
Definition all_closed (w : World) : Prop :=
  forall i es, sources w !! i = Some es -> is_closed (es_readyState es) = true.

(** ** Concrete inputs *)

(** A page origin and payloads of the wire format, for running the
    statements below. *)
Definition localhost : string := "http://localhost:5173".

Definition quoted (s : string) : string :=
  String "034" EmptyString +:+ s +:+ String "034" EmptyString.

(** The text [{"x":x,"y":y,"z":z}], the three numbers given as text. *)
Definition sample_text (x y z : string) : string :=
  "{" +:+ quoted "x" +:+ ":" +:+ x +:+ "," +:+ quoted "y" +:+ ":" +:+ y +:+ ","
      +:+ quoted "z" +:+ ":" +:+ z +:+ "}".

(** The decimal literal [1.5708] denotes this binary64 value. *)
Definition literal_1_5708 : float := 0x1.921ff2e48e8a7p+0%float.

(** ** The commit loop settles *)

Lemma connectionEffect_idle (s : Store) :
  changeConnectionUrl (fst s) = false -> connectionEffect s = s.
Proof. destruct s as [st w]; simpl; intros ->; reflexivity. Qed.

Lemma connectionEffect_change (s : Store) :
  changeConnectionUrl (fst (connectionEffect s)) = false.
Proof.
  destruct s as [st w]; unfold connectionEffect.
  destruct (changeConnectionUrl st) eqn:E; [reflexivity | exact E].
Qed.

Lemma commit_idle (c : Config) :
  changeConnectionUrl (fst (store c)) = false ->
  commit c = {| store := store c; lastDeps := Some (deps (fst (store c))) |}.
Proof.
  intros H; unfold commit; destruct c as [s d]; simpl in *.
  destruct (decide (d = Some (deps (fst s)))) as [-> | _]; [reflexivity|].
  rewrite connectionEffect_idle by exact H; reflexivity.
Qed.

Lemma settle_idle (c : Config) :
  changeConnectionUrl (fst (store c)) = false ->
  settle c = {| store := store c; lastDeps := Some (deps (fst (store c))) |}.
Proof.
  intros H; unfold settle; simpl.
  rewrite (commit_idle c H), commit_idle by exact H; reflexivity.
Qed.

Lemma settle_apply (c : Config) :
  lastDeps c <> Some (deps (fst (store c))) ->
  settle c = {| store := connectionEffect (store c);
                lastDeps := Some (deps (fst (connectionEffect (store c)))) |}.
Proof.
  intros H; unfold settle; simpl.
  assert (commit c = {| store := connectionEffect (store c);
                        lastDeps := Some (deps (fst (store c))) |}) as ->.
  { unfold commit; destruct (decide _) as [E | _]; [contradiction | reflexivity]. }
  rewrite commit_idle by apply connectionEffect_change; reflexivity.
Qed.

(** Two rounds are enough: a third render finds nothing to do. *)
Lemma commit_settle (c : Config) : commit (settle c) = settle c.
Proof.
  destruct (decide (lastDeps c = Some (deps (fst (store c))))) as [E | E].
  - assert (commit c = c) as Hc.
    { unfold commit; destruct (decide _); [reflexivity | contradiction]. }
    unfold settle; simpl; rewrite !Hc; reflexivity.
  - rewrite settle_apply by exact E.
    unfold commit; simpl; destruct (decide _); [reflexivity | contradiction].
Qed.

Lemma render_loop_settles (extra : nat) (c : Config) :
  render_loop (extra + 2) c = settle c.
Proof.
  revert c; induction extra as [|n IH]; intros c; [reflexivity|].
  assert (forall k c', render_loop (S k) c' = commit (render_loop k c')) as Hsnoc.
  { induction k as [|k IHk]; intros c'; [reflexivity|].
    change (render_loop (S (S k)) c') with (render_loop (S k) (commit c')).
    rewrite IHk; reflexivity. }
  change (S n + 2) with (S (n + 2)).
  rewrite Hsnoc, IH; apply commit_settle.
Qed.

(** ** What the handlers do to the connection *)

(** Case analysis on the guards of [handle]: is the EventSource there and
    live, is the request there and pending, which chain does it carry. *)
Ltac guard_cases :=
  repeat match goal with
    | |- context [when_live] => unfold when_live; simpl
    | |- context [match ?l !! ?i with _ => _ end] =>
        let E := fresh "Hlook" in destruct (l !! i) eqn:E
    | |- context [if is_closed ?r then _ else _] =>
        let E := fresh "Hlive" in destruct (is_closed r) eqn:E
    | |- context [if rq_pending ?r then _ else _] => destruct (rq_pending r)
    | |- context [match rq_chain ?r with _ => _ end] =>
        let u := fresh "url" in destruct (rq_chain r) as [|u]
    end.

Section Handlers.

Variable origin : string.
Variable JSON_parse : string -> JS.Completion JS.Value.

Local Abbreviation handle := (handle origin JSON_parse).

(** The data listener writes [rotation] and nothing else. *)
Lemma dataListener_sets_rotation (event_data : string) (st st' : AppState) :
  dataListener JSON_parse event_data st = JS.Normal st' ->
  exists r, st' = setRotation r st.
Proof.
  unfold dataListener.
  destruct (JSON_parse event_data) as [v|]; [simpl|discriminate].
  destruct (JS.get v "x") as [x|]; [simpl|discriminate].
  destruct (JS.get v "z") as [z|]; [simpl|discriminate].
  destruct (JS.get v "y") as [y|]; [simpl|discriminate].
  intros [= <-]; eauto.
Qed.

Lemma resetChain_frame (o : JS.Settled nat) (s : Store) :
  fst (resetChain o s) = fst s
  /\ sources (snd (resetChain o s)) = sources (snd s)
  /\ calls (snd (resetChain o s)) = calls (snd s).
Proof. destruct s as [st w], o as [n|err]; repeat split; reflexivity. Qed.

Lemma uploadChain_frame (url : string) (o : JS.Settled nat) (s : Store) :
  (fst (uploadChain url o s) = fst s
   \/ fst (uploadChain url o s) = setModel (Some (url +:+ "/model.glb")) (fst s))
  /\ sources (snd (uploadChain url o s)) = sources (snd s)
  /\ calls (snd (uploadChain url o s)) = calls (snd s).
Proof.
  destruct s as [st w], o as [n|err]; unfold uploadChain; simpl.
  - destruct (negb (Nat.eqb n 404)); simpl; auto.
  - auto.
Qed.

Lemma handle_touch (e : Event) (s : Store) :
  Touch e (snd s) (snd (handle e s)).
Proof.
  destruct s as [st w].
  destruct e; simpl; guard_cases;
    try (apply Untouched; reflexivity);
    try (eapply Fetched; reflexivity).
  - (* FileChange *)
    destruct file; [eapply Fetched | apply Untouched]; reflexivity.
  - (* SourceOpen *) eapply Announced; eauto.
  - (* SourceError *) eapply Failed; eauto.
  - (* SourceData *)
    destruct (dataListener JSON_parse data st); apply Untouched; reflexivity.
  - (* Response, reset *) apply Untouched; apply resetChain_frame.
  - (* Response, upload *) apply Untouched; apply uploadChain_frame.
Qed.

(** What an event may do to the dependencies of the effect: it leaves the
    EventSource in state alone, and only the apply action sets
    [changeConnectionUrl]. *)
Lemma handle_deps (e : Event) (s : Store) :
  eventSource (fst (handle e s)) = eventSource (fst s)
  /\ (e <> SetAndUse ->
      changeConnectionUrl (fst (handle e s)) = changeConnectionUrl (fst s)).
Proof.
  destruct s as [st w].
  destruct e; simpl; guard_cases;
    try (split; [reflexivity | intros _; reflexivity]).
  - (* SetAndUse *) split; [reflexivity | intros H; contradiction].
  - (* FileChange *) destruct file; split; reflexivity.
  - (* SourceData *)
    destruct (dataListener JSON_parse data st) as [st'|] eqn:E;
      [|split; reflexivity].
    destruct (dataListener_sets_rotation data st st' E) as [r ->].
    split; reflexivity.
  - (* Response, reset *)
    destruct (resetChain_frame outcome
                (st, with_requests (alter settle_request request) w)) as [-> _].
    split; reflexivity.
  - (* Response, upload *)
    destruct (uploadChain_frame url outcome
                (st, with_requests (alter settle_request request) w)) as [[-> | ->] _];
      split; reflexivity.
Qed.

Lemma handle_eventSource (e : Event) (s : Store) :
  eventSource (fst (handle e s)) = eventSource (fst s).
Proof. apply handle_deps. Qed.

Lemma handle_changeConnectionUrl (e : Event) (s : Store) :
  e <> SetAndUse ->
  changeConnectionUrl (fst (handle e s)) = changeConnectionUrl (fst s).
Proof. apply handle_deps. Qed.

End Handlers.

(** ** The states the mounted component can be in *)

Section Reachable.

Variable origin : string.
Variable JSON_parse : string -> JS.Completion JS.Value.

Local Abbreviation handle := (handle origin JSON_parse).



Lemma connectionEffect_apply (st : AppState) (w : World) :
  changeConnectionUrl st = true ->
  connectionEffect (st, w) =
    (setChangeConnectionUrl false
       (setEventSource (Some (length (sources (close_current st w))))
          (setConnectionError None st)),
     snd (new_EventSource (connectionUrl st +:+ "/events") (close_current st w))).
Proof. intros H; unfold connectionEffect, close_current; rewrite H; reflexivity. Qed.

Lemma filter_all_equal (es : nat) (l : list nat) :
  (forall i, i ∈ l -> i = es) -> filter (fun i => i <> es) l = [].
Proof.
  intros H; induction l as [|a l IH]; [reflexivity|].
  rewrite filter_cons.
  destruct (decide (a <> es)) as [Hne | _].
  - exfalso; apply Hne, H; left.
  - apply IH; intros i Hi; apply H; right; exact Hi.
Qed.

Lemma live_close_current (st : AppState) (w : World) :
  (forall i, i ∈ live (calls w) -> eventSource st = Some i) ->
  live (calls (close_current st w)) = [].
Proof.
  intros H; unfold close_current.
  destruct (eventSource st) as [es|] eqn:E; simpl.
  - apply filter_all_equal; intros i Hi.
    specialize (H i Hi); congruence.
  - destruct (live (calls w)) as [|i l]; [reflexivity|].
    specialize (H i ltac:(left)); discriminate.
Qed.

Lemma closed_after_close_current (st : AppState) (w : World) (i : nat) (es : EventSourceObj) :
  (forall j e, sources w !! j = Some e -> is_closed (es_readyState e) = false ->
               eventSource st = Some j) ->
  sources (close_current st w) !! i = Some es ->
  is_closed (es_readyState es) = true.
Proof.
  intros H; unfold close_current.
  destruct (eventSource st) as [cur|] eqn:E; simpl.
  - destruct (decide (cur = i)) as [-> | Hne].
    + rewrite list_lookup_alter_eq.
      destruct (sources w !! i); simpl; [|discriminate].
      intros [= <-]; reflexivity.
    + rewrite list_lookup_alter_ne by exact Hne.
      intros Hi; destruct (is_closed (es_readyState es)) eqn:C; [reflexivity|].
      specialize (H i es Hi C); congruence.
  - intros Hi; destruct (is_closed (es_readyState es)) eqn:C; [reflexivity|].
    specialize (H i es Hi C); discriminate.
Qed.

Lemma order_close_current (st : AppState) (w : World) :
  closes_before_opening (calls w) -> closes_before_opening (calls (close_current st w)).
Proof. unfold close_current; destruct (eventSource st); simpl; auto. Qed.

(** The effect, run with [changeConnectionUrl] set, leaves a settled
    component with exactly the new connection live. *)
Lemma quiescent_after_effect (st : AppState) (w : World) (d : option Deps) :
  changeConnectionUrl st = true ->
  d <> Some (deps st) ->
  (forall i es, sources w !! i = Some es -> is_closed (es_readyState es) = false ->
                i ∈ live (calls w)) ->
  (forall i, i ∈ live (calls w) -> eventSource st = Some i) ->
  closes_before_opening (calls w) ->
  quiescent (settle {| store := (st, w); lastDeps := d |}).
Proof.
  intros Hch Hd Hopen Hlive Hord.
  rewrite settle_apply by exact Hd.
  simpl store; rewrite connectionEffect_apply by exact Hch.
  assert (forall j e, sources w !! j = Some e -> is_closed (es_readyState e) = false ->
                      eventSource st = Some j) as Hcur by eauto.
  split; unfold app, world; simpl.
  - reflexivity.
  - reflexivity.
  - intros i es Hi Hc.
    destruct (decide (i < length (sources (close_current st w)))) as [Hlt | Hge].
    + rewrite lookup_app_l in Hi by exact Hlt.
      rewrite (closed_after_close_current st w i es Hcur Hi) in Hc; discriminate.
    + rewrite lookup_app_r in Hi by lia.
      destruct (i - length (sources (close_current st w))) as [|k] eqn:Ek;
        [|destruct k; discriminate].
      replace i with (length (sources (close_current st w))) by lia; left.
  - intros i Hi; rewrite live_close_current in Hi by exact Hlive.
    apply list_elem_of_singleton in Hi; subst i; reflexivity.
  - split; [apply live_close_current; exact Hlive | apply order_close_current; exact Hord].
  - eexists; split; [reflexivity|].
    rewrite length_app; simpl; lia.
Qed.

Lemma quiescent_mount : quiescent (mount origin).
Proof.
  unfold mount; apply quiescent_after_effect; simpl.
  - reflexivity.
  - discriminate.
  - intros i es Hi; rewrite lookup_nil in Hi; discriminate.
  - intros i Hi; inversion Hi.
  - exact I.
Qed.

Lemma touch_open (e : Event) (w w' : World) :
  Touch e w w' ->
  (forall i es, sources w !! i = Some es -> is_closed (es_readyState es) = false ->
                i ∈ live (calls w)) ->
  forall i es, sources w' !! i = Some es -> is_closed (es_readyState es) = false ->
               i ∈ live (calls w').
Proof.
  intros T H i es' Hi Hc.
  destruct T as [Hs Hk | id m u Hs Hk | source es _ Hsrc Hlive Hs Hk
                 | source fatal es r _ Hsrc Hlive Hs Hk];
    rewrite Hs in Hi; rewrite Hk; simpl.
  - eauto.
  - eauto.
  - destruct (decide (source = i)) as [-> | Hne].
    + eauto.
    + rewrite list_lookup_alter_ne in Hi by exact Hne; eauto.
  - destruct (decide (source = i)) as [-> | Hne].
    + rewrite list_lookup_alter_eq in Hi.
      destruct (alter (set_readyState r) i (sources w) !! i); simpl in Hi; [|discriminate].
      injection Hi as <-; discriminate.
    + rewrite !list_lookup_alter_ne in Hi by exact Hne.
      apply list_elem_of_filter; split; [congruence | eauto].
Qed.

Lemma touch_live (e : Event) (w w' : World) (i : nat) :
  Touch e w w' -> i ∈ live (calls w') -> i ∈ live (calls w).
Proof.
  intros T; destruct T as [_ Hk | ? ? ? _ Hk | ? ? _ _ _ _ Hk | ? ? ? ? _ _ _ _ Hk];
    rewrite Hk; simpl; auto.
  intros Hi; apply list_elem_of_filter in Hi; apply Hi.
Qed.

Lemma touch_order (e : Event) (w w' : World) :
  Touch e w w' -> closes_before_opening (calls w) -> closes_before_opening (calls w').
Proof.
  intros T; destruct T as [_ Hk | ? ? ? _ Hk | ? ? _ _ _ _ Hk | ? ? ? ? _ _ _ _ Hk];
    rewrite Hk; simpl; auto.
Qed.

Lemma touch_created (e : Event) (w w' : World) :
  Touch e w w' -> created (calls w') = created (calls w).
Proof.
  intros T; destruct T as [_ Hk | ? ? ? _ Hk | ? ? _ _ _ _ Hk | ? ? ? ? _ _ _ _ Hk];
    rewrite Hk; reflexivity.
Qed.

Lemma touch_length (e : Event) (w w' : World) :
  Touch e w w' -> length (sources w') = length (sources w).
Proof.
  intros T; destruct T as [Hs _ | ? ? ? Hs _ | ? ? _ _ _ Hs _ | ? ? ? ? _ _ _ Hs _];
    rewrite Hs; rewrite ?length_alter; reflexivity.
Qed.

Lemma apply_or_not (e : Event) : e = SetAndUse \/ e <> SetAndUse.
Proof. destruct e; (left; reflexivity) || (right; discriminate). Qed.

(** Any event but the apply action leaves the effect idle. *)
Lemma step_idle (c : Config) (e : Event) :
  quiescent c -> e <> SetAndUse ->
  step origin JSON_parse c e =
    {| store := handle e (store c);
       lastDeps := Some (deps (fst (handle e (store c)))) |}.
Proof.
  intros Q Hne; unfold step.
  rewrite settle_idle; simpl; [reflexivity|].
  rewrite handle_changeConnectionUrl by exact Hne; apply Q.
Qed.

Lemma quiescent_step (c : Config) (e : Event) :
  quiescent c -> quiescent (step origin JSON_parse c e).
Proof.
  intros Q; destruct (apply_or_not e) as [-> | Hne].
  - unfold step; simpl.
    destruct c as [[st w] d]; destruct Q as [Qc Qd Qo Ql Qr _];
      unfold app, world in *; simpl in *.
    apply quiescent_after_effect; simpl; auto.
    rewrite Qd; unfold deps; simpl; rewrite Qc; intros [=].
  - rewrite step_idle by assumption.
    pose proof (handle_touch origin JSON_parse e (store c)) as T.
    destruct Q as [Qc Qd Qo Ql Qr (es & Qs & Qlt)]; split; unfold app, world in *; simpl.
    + rewrite handle_changeConnectionUrl by exact Hne; exact Qc.
    + reflexivity.
    + eapply touch_open; eauto.
    + intros i Hi; rewrite handle_eventSource; eauto using touch_live.
    + eapply touch_order; eauto.
    + exists es; rewrite handle_eventSource, (touch_length _ _ _ T); auto.
Qed.

Lemma quiescent_steps (events : list Event) (c : Config) :
  quiescent c -> quiescent (fold_left (step origin JSON_parse) events c).
Proof.
  revert c; induction events as [|e events IH]; intros c Q; simpl;
    [exact Q | apply IH, quiescent_step, Q].
Qed.

Lemma quiescent_run (events : list Event) : quiescent (run origin JSON_parse events).
Proof. apply quiescent_steps, quiescent_mount. Qed.

End Reachable.

(** ** Running events one by one *)

Lemma mount_store (origin : string) :
  store (mount origin) =
    (setChangeConnectionUrl false
       (setEventSource (Some 0) (setConnectionError None (initialState origin))),
     {| sources := [{| es_url := origin +:+ "/events"; es_readyState := CONNECTING |}];
        requests := [];
        calls := [NewEventSource 0 (origin +:+ "/events")];
        console := [] |}).
Proof.
  unfold mount; rewrite settle_apply by (simpl; discriminate).
  cbn [store]; rewrite connectionEffect_apply by reflexivity; reflexivity.
Qed.

Lemma step_store (origin : string) (JSON_parse : string -> JS.Completion JS.Value)
    (c : Config) (e : Event) :
  quiescent c -> e <> SetAndUse ->
  store (step origin JSON_parse c e) = handle origin JSON_parse e (store c).
Proof. intros Q Hne; rewrite step_idle by assumption; reflexivity. Qed.

Lemma store_eta (c : Config) : store c = (app c, world c).
Proof. unfold app, world; destruct (store c); reflexivity. Qed.

(** The apply action runs the effect: the connection in state is closed,
    then a new one is made for the URL in the text field. *)
Lemma apply_store (origin : string) (JSON_parse : string -> JS.Completion JS.Value)
    (c : Config) :
  quiescent c ->
  store (step origin JSON_parse c SetAndUse) =
    (setChangeConnectionUrl false
       (setEventSource (Some (length (sources (close_current (app c) (world c)))))
          (setConnectionError None (onSetAndUse (app c)))),
     snd (new_EventSource (connectionUrl (app c) +:+ "/events")
            (close_current (app c) (world c)))).
Proof.
  intros Q; unfold step; simpl.
  rewrite settle_apply.
  - cbn [store]; rewrite store_eta; unfold lift; cbn [fst snd].
    rewrite connectionEffect_apply by reflexivity; reflexivity.
  - simpl; rewrite (q_deps c Q); unfold deps, lift; simpl.
    rewrite (q_change c Q); intros [=].
Qed.

Lemma as_GyroData_Some (v : JS.Value) (d : GyroData) :
  as_GyroData v = Some d ->
  exists fields,
    v = JS.Obj fields
    /\ JS.own fields "x" = JS.Num (gyro_x d)
    /\ JS.own fields "y" = JS.Num (gyro_y d)
    /\ JS.own fields "z" = JS.Num (gyro_z d).
Proof.
  destruct v as [| | | | | |fields]; try discriminate; simpl.
  destruct (JS.own fields "x") as [| | |x| | |] eqn:Hx; try discriminate.
  destruct (JS.own fields "y") as [| | |y| | |] eqn:Hy; try discriminate.
  destruct (JS.own fields "z") as [| | |z| | |] eqn:Hz; try discriminate.
  intros [= <-]; exists fields; auto.
Qed.

(** A well-formed sample on a live connection: the listener stores it. *)
Lemma data_event_store
    (origin : string) (JSON_parse : string -> JS.Completion JS.Value)
    (c : Config) (source : nat) (es : EventSourceObj)
    (event_data : string) (fields : list (string * JS.Value)) (x y z : JS.Value) :
  quiescent c ->
  sources (world c) !! source = Some es ->
  is_closed (es_readyState es) = false ->
  JSON_parse event_data = JS.Normal (JS.Obj fields) ->
  JS.own fields "x" = x -> JS.own fields "y" = y -> JS.own fields "z" = z ->
  store (step origin JSON_parse c (SourceData source event_data)) =
    (setRotation (x, z, y) (app c), world c).
Proof.
  intros Q Hsrc Hlive Hparse Hx Hy Hz.
  rewrite step_store by (exact Q || discriminate).
  simpl; unfold when_live; fold (world c); rewrite Hsrc, Hlive.
  unfold dataListener; rewrite Hparse; simpl; rewrite Hx, Hy, Hz; reflexivity.
Qed.

(** Telling two numbers apart: equal numbers compare equal. *)
Lemma float_neq (a b : float) : PrimFloat.eqb a b = false -> is_nan a = false -> a <> b.
Proof.
  intros Hne Hnan ->.
  unfold is_nan in Hnan; rewrite Hne in Hnan; discriminate.
Qed.

Lemma Scene_rotation (props : SceneProps) :
  r_rotation (Scene props) =
    unifiedRotation (p_rotation props)
      (default (0%float, 0%float, 0%float) (p_modelRotation props)).
Proof. unfold Scene; destruct (JS.truthy (p_gltf props)); reflexivity. Qed.

Lemma Scene_scale (props : SceneProps) : r_scale (Scene props) = p_modelScale props.
Proof. unfold Scene; destruct (JS.truthy (p_gltf props)); reflexivity. Qed.


(** ** The reader on sample payloads *)

Example parse_sample :
  JSONText.parse (sample_text "1.0" "2.0" "3.0")
  = JS.Normal (JS.Obj [("x", JS.Num 1); ("y", JS.Num 2); ("z", JS.Num 3)]).
Proof. vm_compute; reflexivity. Qed.

Example parse_1_5708 : JSONText.parse " 1.5708 " = JS.Normal (JS.Num literal_1_5708).
Proof. vm_compute; reflexivity. Qed.

Example parse_half_pi :
  JSONText.parse "1.5707963267948966" = JS.Normal (JS.Num half_pi).
Proof. vm_compute; reflexivity. Qed.

Example parse_truncated :
  JSONText.parse ("{" +:+ quoted "x" +:+ ":1.0,") = JS.Throw JS.SyntaxError.
Proof. vm_compute; reflexivity. Qed.

Example parse_last_key_wins :
  JS.bind (JSONText.parse ("{" +:+ quoted "x" +:+ ":1," +:+ quoted "x" +:+ ":2}"))
    (fun v => JS.get v "x")
  = JS.Normal (JS.Num 2).
Proof. vm_compute; reflexivity. Qed.

(** ** Coordinate mapping and composition *)

(** C1. A sample [{x, y, z}] that arrives on a live connection is stored as
    the triple [x, z, y], and that triple is the [rotation] prop handed to
    [Scene]: the second and third sensor axes are swapped.  With the sample
    [{x:1, y:2, z:3}] and no user offset the rendered rotation is
    [1, 3, 2]. *)
Theorem data_event_maps_sample_to_x_z_y
    (origin : string) (JSON_parse : string -> JS.Completion JS.Value)
    (events : list Event) (source : nat) (es : EventSourceObj)
    (event_data : string) (data : JS.Value) (x y z : float) :
  let c := run origin JSON_parse events in
  let c' := step origin JSON_parse c (SourceData source event_data) in
  sources (world c) !! source = Some es ->
  is_closed (es_readyState es) = false ->
  JSON_parse event_data = JS.Normal data ->
  as_GyroData data = Some {| gyro_x := x; gyro_y := y; gyro_z := z |} ->
  rotation (app c') = (JS.Num x, JS.Num z, JS.Num y)
  /\ v_scene (render (app c')) =
       Some (Scene {| p_modelRotation := Some (modelRotation (app c));
                      p_gltf := model (app c);
                      p_modelScale := modelScale (app c);
                      p_rotation := (x, z, y) |})
  /\ (x = 1%float -> y = 2%float -> z = 3%float ->
      modelRotation (app c) = (0%float, 0%float, 0%float) ->
      r_rotation <$> v_scene (render (app c')) = Some (1%float, 3%float, 2%float)).
Proof.
  intros c c' Hsrc Hlive Hparse Hdata.
  destruct (as_GyroData_Some _ _ Hdata) as (fields & -> & Hx & Hy & Hz); simpl in Hx, Hy, Hz.
  assert (store c' = (setRotation (JS.Num x, JS.Num z, JS.Num y) (app c), world c)) as Hc'.
  { eapply data_event_store; eauto using quiescent_run. }
  assert (v_scene (render (app c')) =
            Some (Scene {| p_modelRotation := Some (modelRotation (app c));
                           p_gltf := model (app c);
                           p_modelScale := modelScale (app c);
                           p_rotation := (x, z, y) |})) as Hscene.
  { unfold app at 1; rewrite Hc'; reflexivity. }
  split; [unfold app at 1; rewrite Hc'; reflexivity|].
  split; [exact Hscene|].
  intros -> -> -> H0; rewrite Hscene; simpl.
  rewrite Scene_rotation; simpl; rewrite H0; reflexivity.
Qed.

Lemma data_event_maps_sample_to_x_z_y_witness :
  let c := run localhost JSONText.parse [SourceOpen 0] in
  let c' := step localhost JSONText.parse c (SourceData 0 (sample_text "1.0" "2.0" "3.0")) in
  rotation (app c') = (JS.Num 1, JS.Num 3, JS.Num 2)
  /\ v_scene (render (app c')) =
       Some (Scene {| p_modelRotation := Some (modelRotation (app c));
                      p_gltf := model (app c);
                      p_modelScale := modelScale (app c);
                      p_rotation := (1%float, 3%float, 2%float) |})
  /\ (1%float = 1%float -> 2%float = 2%float -> 3%float = 3%float ->
      modelRotation (app c) = (0%float, 0%float, 0%float) ->
      r_rotation <$> v_scene (render (app c')) = Some (1%float, 3%float, 2%float)).
Proof.
  apply (data_event_maps_sample_to_x_z_y localhost JSONText.parse [SourceOpen 0] 0
           {| es_url := localhost +:+ "/events"; es_readyState := OPEN |}
           (sample_text "1.0" "2.0" "3.0")
           (JS.Obj [("x", JS.Num 1); ("y", JS.Num 2); ("z", JS.Num 3)]) 1 2 3);
    vm_compute; reflexivity.
Defined.

(** C2. [Scene] adds the user offset to the base rotation axis by axis and
    takes the scale from the offset's scale alone; [App] passes its
    [modelRotation] and [modelScale] as that offset, so the rendered scale
    never depends on the telemetry. *)
Theorem composed_transform_adds_rotation_keeps_scale
    (b0 b1 b2 o0 o1 o2 scale : float) (gltf : option string) (st : AppState) :
  let out := Scene {| p_modelRotation := Some (o0, o1, o2);
                      p_gltf := gltf;
                      p_modelScale := scale;
                      p_rotation := (b0, b1, b2) |} in
  let shown := v_scene (render (setRotation (JS.Num b0, JS.Num b1, JS.Num b2) st)) in
  r_rotation out = ((b0 + o0)%float, (b1 + o1)%float, (b2 + o2)%float)
  /\ r_scale out = scale
  /\ r_rotation <$> shown = Some (unifiedRotation (b0, b1, b2) (modelRotation st))
  /\ r_scale <$> shown = Some (modelScale st).
Proof.
  simpl; rewrite !Scene_rotation, !Scene_scale; repeat split; reflexivity.
Qed.


(** C4, as the code has it.  After one "Rotate model (Y)" action and a
    sample [{x:0, y:0, z:0}], the composed rotation is [0, Math.PI / 2, 0]:
    the Y action adds [Math.PI / 2] to index 1 of the offset, the sample
    maps to the base [0, 0, 0], and composition is index by index, so the
    offset stays at index 1. *)
Theorem rotate_y_then_zero_sample_turns_second_axis
    (origin : string) (JSON_parse : string -> JS.Completion JS.Value)
    (event_data : string) (data : JS.Value) :
  let c := run origin JSON_parse [SourceOpen 0; RotateY; SourceData 0 event_data] in
  JSON_parse event_data = JS.Normal data ->
  as_GyroData data = Some {| gyro_x := 0; gyro_y := 0; gyro_z := 0 |} ->
  modelRotation (app c) = (0%float, half_pi, 0%float)
  /\ rotation (app c) = (JS.Num 0, JS.Num 0, JS.Num 0)
  /\ r_rotation <$> v_scene (render (app c)) = Some (0%float, half_pi, 0%float).
Proof.
  intros c Hparse Hdata; unfold c, run; simpl fold_left.
  destruct (as_GyroData_Some _ _ Hdata) as (fields & -> & Hx & Hy & Hz); simpl in Hx, Hy, Hz.
  set (opened := step origin JSON_parse (mount origin) (SourceOpen 0)).
  set (before := step origin JSON_parse opened RotateY).
  assert (quiescent opened) as Qo by apply quiescent_step, quiescent_mount.
  assert (quiescent before) as Q by apply quiescent_step, Qo.
  assert (store before =
            handle origin JSON_parse RotateY
              (handle origin JSON_parse (SourceOpen 0) (store (mount origin)))) as Hst.
  { unfold before; rewrite step_store by (exact Qo || discriminate).
    unfold opened; rewrite step_store by (apply quiescent_mount || discriminate).
    reflexivity. }
  rewrite mount_store in Hst; simpl in Hst.
  unfold app.
  rewrite (data_event_store origin JSON_parse before 0
             {| es_url := origin +:+ "/events"; es_readyState := OPEN |}
             event_data fields (JS.Num 0) (JS.Num 0) (JS.Num 0) Q);
    [| unfold world; rewrite Hst; reflexivity | reflexivity | assumption ..].
  unfold app; cbn [fst]; rewrite Hst; simpl.
  repeat split; reflexivity.
Qed.

Lemma rotate_y_then_zero_sample_turns_second_axis_witness :
  let c := run localhost JSONText.parse
             [SourceOpen 0; RotateY; SourceData 0 (sample_text "0" "0" "0")] in
  modelRotation (app c) = (0%float, half_pi, 0%float)
  /\ rotation (app c) = (JS.Num 0, JS.Num 0, JS.Num 0)
  /\ r_rotation <$> v_scene (render (app c)) = Some (0%float, half_pi, 0%float).
Proof.
  apply (rotate_y_then_zero_sample_turns_second_axis localhost JSONText.parse
           (sample_text "0" "0" "0")
           (JS.Obj [("x", JS.Num 0); ("y", JS.Num 0); ("z", JS.Num 0)]));
    vm_compute; reflexivity.
Defined.

(** C4 as the specification words it fails: the rotation composed after the
    Y action and a zero sample is [0, Math.PI / 2, 0], which is neither
    [0, 0, 1.5708] nor [0, 0, Math.PI / 2]. *)
Lemma rotate_y_then_zero_sample_leaves_third_axis :
  let c := run localhost JSONText.parse
             [SourceOpen 0; RotateY; SourceData 0 (sample_text "0" "0" "0")] in
  r_rotation <$> v_scene (render (app c)) = Some (0%float, half_pi, 0%float)
  /\ (0%float, half_pi, 0%float) <> (0%float, 0%float, literal_1_5708)
  /\ (0%float, half_pi, 0%float) <> (0%float, 0%float, half_pi).
Proof.
  split; [vm_compute; reflexivity|].
  split; intros [= H _]; revert H; apply float_neq; reflexivity.
Qed.

(** ** Offsets accumulate *)

Lemma step_RotateX (origin : string) (JSON_parse : string -> JS.Completion JS.Value)
    (c : Config) :
  quiescent c -> app (step origin JSON_parse c RotateX) = onRotateX (app c).
Proof.
  intros Q; unfold app; rewrite step_store by (exact Q || discriminate); reflexivity.
Qed.

(** C8, as the code has it.  Four "Rotate model (X)" actions from an X
    offset [r] leave the binary64 sum [(((r + h) + h) + h) + h] with
    [h = Math.PI / 2] and leave the other two offsets alone: nothing wraps
    the angle.  From the initial offset 0 that sum is [2 * Math.PI]
    exactly. *)
Theorem four_x_turns_accumulate_unwrapped
    (origin : string) (JSON_parse : string -> JS.Completion JS.Value)
    (events : list Event) :
  let c := run origin JSON_parse events in
  let c' := fold_left (step origin JSON_parse) [RotateX; RotateX; RotateX; RotateX] c in
  let fresh := run origin JSON_parse [RotateX; RotateX; RotateX; RotateX] in
  (let '(r, p1, p2) := modelRotation (app c) in
   modelRotation (app c') =
     (((((r + half_pi) + half_pi) + half_pi) + half_pi)%float, p1, p2))
  /\ modelRotation (app fresh) = ((2 * Math_PI)%float, 0%float, 0%float).
Proof.
  intros c c' fresh.
  assert (forall k : Config, quiescent k ->
            app (fold_left (step origin JSON_parse) [RotateX; RotateX; RotateX; RotateX] k)
            = onRotateX (onRotateX (onRotateX (onRotateX (app k))))) as Hfour.
  { intros k Q; simpl.
    rewrite !step_RotateX; auto using quiescent_step. }
  split.
  - unfold c'; rewrite Hfour by apply quiescent_run.
    unfold onRotateX, setModelRotation; simpl.
    destruct (modelRotation (app c)) as [[r p1] p2]; reflexivity.
  - unfold fresh, run; rewrite Hfour by apply quiescent_mount.
    unfold app; rewrite mount_store; reflexivity.
Qed.

(** C8 as the specification words it fails.  After ten X actions the offset
    is [r = 15.707963267948966]; four more leave [21.991148575128555],
    one unit in the last place above [r + 2 * Math.PI =
    21.991148575128552]. *)
Lemma four_x_turns_miss_r_plus_two_pi :
  let c := run localhost JSONText.parse (repeat RotateX 10) in
  let c' := fold_left (step localhost JSONText.parse) [RotateX; RotateX; RotateX; RotateX] c in
  let r := (modelRotation (app c)).1.1 in
  let r' := (modelRotation (app c')).1.1 in
  r = 0x1.f6a7a2955385ep+3%float
  /\ r' = 0x1.5fdbbe9bba776p+4%float
  /\ (r + 2 * Math_PI)%float = 0x1.5fdbbe9bba775p+4%float
  /\ r' <> (r + 2 * Math_PI)%float.
Proof.
  repeat split; try (vm_compute; reflexivity).
  apply float_neq; vm_compute; reflexivity.
Qed.

(** ** Malformed payloads *)

(** C5. When [JSON.parse] throws on the payload of a [data] event, the
    listener ends with that same error: nothing in it catches the error,
    and no state is written.  Dispatched on a live connection, the error
    reaches the browser as an uncaught one and the component's state stays
    as it was. *)
Theorem parse_failure_escapes_data_listener
    (origin : string) (JSON_parse : string -> JS.Completion JS.Value)
    (event_data : string) (err : JS.Error) (st : AppState) :
  JSON_parse event_data = JS.Throw err ->
  dataListener JSON_parse event_data st = JS.Throw err
  /\ forall (source : nat) (es : EventSourceObj) (w : World),
       sources w !! source = Some es ->
       is_closed (es_readyState es) = false ->
       handle origin JSON_parse (SourceData source event_data) (st, w)
       = (st, report (UncaughtError err) w).
Proof.
  intros Hparse.
  assert (dataListener JSON_parse event_data st = JS.Throw err) as Hl.
  { unfold dataListener; rewrite Hparse; reflexivity. }
  split; [exact Hl|].
  intros source es w Hsrc Hlive; simpl; unfold when_live; simpl.
  rewrite Hsrc, Hlive, Hl; reflexivity.
Qed.

Lemma parse_failure_escapes_data_listener_witness :
  dataListener JSONText.parse "{" (initialState localhost) = JS.Throw JS.SyntaxError
  /\ forall (source : nat) (es : EventSourceObj) (w : World),
       sources w !! source = Some es ->
       is_closed (es_readyState es) = false ->
       handle localhost JSONText.parse (SourceData source "{") (initialState localhost, w)
       = (initialState localhost, report (UncaughtError JS.SyntaxError) w).
Proof.
  apply (parse_failure_escapes_data_listener localhost JSONText.parse "{"
           JS.SyntaxError (initialState localhost)).
  vm_compute; reflexivity.
Defined.

(** Text that is JSON but not a sample does not throw: the listener stores
    what the three property reads give. *)
Example shapeless_payload_is_stored :
  dataListener JSONText.parse "{}" (initialState localhost)
  = JS.Normal (setRotation (JS.Undefined, JS.Undefined, JS.Undefined)
                 (initialState localhost))
  /\ dataListener JSONText.parse "null" (initialState localhost) = JS.Throw JS.TypeError.
Proof. split; vm_compute; reflexivity. Qed.

(** ** One connection at a time *)

Lemma filter_none {A} (P : A -> Prop) `{forall x, Decision (P x)} (l : list A) :
  (forall i x, l !! i = Some x -> ~ P x) -> filter P l = [].
Proof.
  induction l as [|a l IH]; intros Hall; [reflexivity|].
  rewrite filter_cons; destruct (decide (P a)) as [Ha | _].
  - destruct (Hall 0 a eq_refl Ha).
  - apply IH; intros i x Hi; apply (Hall (S i) x Hi).
Qed.

Lemma filter_at_most_one {A} (P : A -> Prop) `{forall x, Decision (P x)} (l : list A) :
  (forall i j x y, l !! i = Some x -> l !! j = Some y -> P x -> P y -> i = j) ->
  length (filter P l) <= 1.
Proof.
  induction l as [|a l IH]; intros Huniq; [simpl; lia|].
  rewrite filter_cons; destruct (decide (P a)) as [Ha | _].
  - rewrite filter_none; [simpl; lia|].
    intros i x Hi Hx.
    specialize (Huniq 0 (S i) a x eq_refl Hi Ha Hx); discriminate.
  - apply IH; intros i j x y Hi Hj Hx Hy.
    specialize (Huniq (S i) (S j) x y Hi Hj Hx Hy); lia.
Qed.

Lemma live_at_most_one (calls : list Call) :
  closes_before_opening calls -> length (live calls) <= 1.
Proof.
  induction calls as [|[id url | id | id m u] older IH]; simpl.
  - lia.
  - intros [-> _]; simpl; lia.
  - intros Hord; specialize (IH Hord).
    pose proof (length_filter (fun i => i <> id) (live older)); lia.
  - exact IH.
Qed.

Lemma closes_before_opening_older (newer older : list Call) :
  closes_before_opening (newer ++ older)%list -> closes_before_opening older.
Proof.
  induction newer as [|[id url | id | id m u] newer IH]; simpl; auto.
  intros [_ Hord]; auto.
Qed.

(** C3. However the events come, the record of transport calls shows every
    [new EventSource] made when no connection was live, so at every point
    of that record at most one connection is live; every EventSource that
    is not closed is counted in the record; and between events at most one
    EventSource is not closed.  Applying a configuration calls [close] on
    the connection in state and only then creates the new EventSource,
    which is the one connection open afterwards. *)
Theorem at_most_one_connection_open
    (origin : string) (JSON_parse : string -> JS.Completion JS.Value)
    (events : list Event) :
  let c := run origin JSON_parse events in
  let w := world c in
  let url := connectionUrl (app c) +:+ "/events" in
  let applied := world (step origin JSON_parse c SetAndUse) in
  closes_before_opening (calls w)
  /\ (forall newer older : list Call,
        calls w = (newer ++ older)%list -> length (live older) <= 1)
  /\ (forall i es, sources w !! i = Some es -> is_closed (es_readyState es) = false ->
                   i ∈ live (calls w))
  /\ length (open_sources w) <= 1
  /\ exists current,
       eventSource (app c) = Some current
       /\ calls applied
          = NewEventSource (length (sources w)) url :: CloseEventSource current :: calls w
       /\ open_sources applied = [{| es_url := url; es_readyState := CONNECTING |}].
Proof.
  intros c w url applied.
  pose proof (quiescent_run origin JSON_parse events) as Q; fold c in Q.
  pose proof Q as [Qc Qd Qo Ql Qr (current & Qs & Qlt)]; fold w in Qo, Ql, Qr, Qlt.
  split; [exact Qr|].
  split.
  { intros newer older E; apply live_at_most_one.
    apply (closes_before_opening_older newer); rewrite <- E; exact Qr. }
  split; [exact Qo|].
  split.
  { apply filter_at_most_one.
    intros i j x y Hi Hj Hx Hy.
    pose proof (Ql i (Qo i x Hi Hx)) as Ei.
    pose proof (Ql j (Qo j y Hj Hy)) as Ej.
    congruence. }
  exists current; split; [exact Qs|].
  unfold applied, world; rewrite apply_store by exact Q.
  fold w; unfold close_current; rewrite Qs; simpl; rewrite length_alter.
  split; [reflexivity|].
  unfold open_sources; simpl; rewrite filter_app.
  rewrite (filter_none _ (alter set_closed current (sources w))); [reflexivity|].
  intros i x Hi Hx.
  assert (is_closed (es_readyState x) = true) as Hcl.
  { apply (closed_after_close_current (app c) w i x).
    - intros j e Hj He; apply Ql, (Qo j e Hj He).
    - unfold close_current; rewrite Qs; exact Hi. }
  rewrite Hcl in Hx; discriminate.
Qed.

(** ** When a connection is opened *)

(** Without the apply action, no event creates an EventSource. *)
Lemma no_apply_no_connection
    (origin : string) (JSON_parse : string -> JS.Completion JS.Value)
    (events : list Event) (c : Config) :
  quiescent c -> SetAndUse ∉ events ->
  created (calls (world (fold_left (step origin JSON_parse) events c)))
    = created (calls (world c))
  /\ length (sources (world (fold_left (step origin JSON_parse) events c)))
     = length (sources (world c)).
Proof.
  revert c; induction events as [|e events IH]; intros c Q Hno; simpl; [auto|].
  apply not_elem_of_cons in Hno as [Hne Hno].
  destruct (IH (step origin JSON_parse c e) (quiescent_step _ _ c e Q) Hno) as [-> ->].
  assert (e <> SetAndUse) as Hne' by congruence.
  unfold world; rewrite step_store by assumption.
  pose proof (handle_touch origin JSON_parse e (store c)) as T.
  split; [eapply touch_created | eapply touch_length]; exact T.
Qed.

(** C7 as the specification words it fails: the component, merely mounted
    (no event at all, so no apply action), has already created an
    EventSource for the page origin, and it is connecting. *)
Lemma mount_opens_a_connection :
  let w := world (run localhost JSONText.parse []) in
  (SetAndUse ∉ ([] : list Event))
  /\ calls w = [NewEventSource 0 "http://localhost:5173/events"]
  /\ sources w = [{| es_url := "http://localhost:5173/events";
                     es_readyState := CONNECTING |}].
Proof.
  split; [apply not_elem_of_nil|].
  unfold run, world; simpl fold_left; rewrite mount_store; split; reflexivity.
Qed.

(** C7, as the code has it.  Mounting the component opens one connection,
    to [origin/events], because [changeConnectionUrl] starts as [true];
    after that, events that do not include the apply action create no
    further EventSource. *)
Theorem connects_on_mount_then_only_on_apply
    (origin : string) (JSON_parse : string -> JS.Completion JS.Value)
    (events : list Event) :
  SetAndUse ∉ events ->
  let w := world (run origin JSON_parse events) in
  created (calls w) = [origin +:+ "/events"]
  /\ length (sources w) = 1.
Proof.
  intros Hno w.
  destruct (no_apply_no_connection origin JSON_parse events (mount origin)
              (quiescent_mount origin) Hno) as [Hc Hl].
  unfold w, run; rewrite Hc, Hl.
  unfold world; rewrite mount_store; split; reflexivity.
Qed.

Lemma connects_on_mount_then_only_on_apply_witness :
  let w := world (run localhost JSONText.parse
                    [ConnectionUrlInput "http://device.local"; CancelAndReset; RotateX]) in
  created (calls w) = [localhost +:+ "/events"]
  /\ length (sources w) = 1.
Proof.
  apply (connects_on_mount_then_only_on_apply localhost JSONText.parse
           [ConnectionUrlInput "http://device.local"; CancelAndReset; RotateX]).
  intros H; repeat (apply elem_of_cons in H as [H | H]; [discriminate|]).
  inversion H.
Defined.

(** ** Transport errors *)


Lemma all_closed_open_sources (w : World) : all_closed w -> open_sources w = [].
Proof.
  intros H; apply filter_none; intros i x Hi Hx.
  rewrite (H i x Hi) in Hx; discriminate.
Qed.

Lemma touch_all_closed (e : Event) (w w' : World) :
  Touch e w w' -> all_closed w -> all_closed w'.
Proof.
  intros T H.
  destruct T as [Hs _ | ? ? ? Hs _ | source es _ Hsrc Hlive _ _
                 | source fatal es r _ Hsrc Hlive _ _].
  - intros i x; rewrite Hs; apply H.
  - intros i x; rewrite Hs; apply H.
  - rewrite (H source es Hsrc) in Hlive; discriminate.
  - rewrite (H source es Hsrc) in Hlive; discriminate.
Qed.

Lemma no_apply_stays_closed
    (origin : string) (JSON_parse : string -> JS.Completion JS.Value)
    (events : list Event) (c : Config) :
  quiescent c -> SetAndUse ∉ events -> all_closed (world c) ->
  all_closed (world (fold_left (step origin JSON_parse) events c)).
Proof.
  revert c; induction events as [|e events IH]; intros c Q Hno H; simpl; [exact H|].
  apply not_elem_of_cons in Hno as [Hne Hno].
  apply IH; [apply quiescent_step, Q | exact Hno |].
  unfold world; rewrite step_store by (exact Q || congruence).
  eapply touch_all_closed; [apply handle_touch | exact H].
Qed.

(** C6. An [error] event on a connection that is not closed closes that
    connection and puts the message in state, where the menu bar shows it;
    no connection is open afterwards, and however many events follow,
    none creates an EventSource until the apply action. *)
Theorem transport_error_closes_and_reports
    (origin : string) (JSON_parse : string -> JS.Completion JS.Value)
    (events later : list Event) (source : nat) (fatal : bool) (es : EventSourceObj) :
  let c := run origin JSON_parse events in
  let c1 := step origin JSON_parse c (SourceError source fatal) in
  let c2 := fold_left (step origin JSON_parse) later c1 in
  sources (world c) !! source = Some es ->
  is_closed (es_readyState es) = false ->
  SetAndUse ∉ later ->
  es_readyState <$> sources (world c1) !! source = Some CLOSED
  /\ calls (world c1) = CloseEventSource source :: calls (world c)
  /\ open_sources (world c1) = []
  /\ connectionError (app c1) = Some "Connection could not be established"
  /\ v_errorText (render (app c1)) = Some "Connection could not be established"
  /\ created (calls (world c2)) = created (calls (world c))
  /\ open_sources (world c2) = [].
Proof.
  intros c c1 c2 Hsrc Hlive Hno.
  pose proof (quiescent_run origin JSON_parse events) as Q; fold c in Q.
  pose proof (quiescent_step origin JSON_parse c (SourceError source fatal) Q) as Q1;
    fold c1 in Q1.
  assert (store c1 =
            (setConnectionError (Some "Connection could not be established") (app c),
             close source
               (with_sources
                  (alter (set_readyState (if fatal then CLOSED else CONNECTING)) source)
                  (world c)))) as Hc1.
  { unfold c1; rewrite step_store by (exact Q || discriminate).
    simpl; unfold when_live; fold (world c); rewrite Hsrc, Hlive; reflexivity. }
  assert (all_closed (world c1)) as Hall.
  { intros i x Hi; destruct (is_closed (es_readyState x)) eqn:Hx; [reflexivity|].
    pose proof (q_open c1 Q1 i x Hi Hx) as Hin.
    unfold world in Hin at 1; rewrite Hc1 in Hin; simpl in Hin.
    apply list_elem_of_filter in Hin as [Hne Hin].
    pose proof (q_live c Q i Hin) as Ei.
    pose proof (q_live c Q source (q_open c Q source es Hsrc Hlive)) as Es.
    congruence. }
  destruct (no_apply_no_connection origin JSON_parse later c1 Q1 Hno) as [Hcr _].
  fold c2 in Hcr.
  repeat split.
  - unfold world; rewrite Hc1; simpl.
    rewrite !list_lookup_alter_eq; fold (world c); rewrite Hsrc; reflexivity.
  - unfold world at 1; rewrite Hc1; reflexivity.
  - apply all_closed_open_sources, Hall.
  - unfold app; rewrite Hc1; reflexivity.
  - unfold app; rewrite Hc1; reflexivity.
  - rewrite Hcr; unfold world at 1; rewrite Hc1; reflexivity.
  - apply all_closed_open_sources.
    apply no_apply_stays_closed; assumption.
Qed.

Lemma transport_error_closes_and_reports_witness :
  let c := run localhost JSONText.parse [SourceOpen 0] in
  let c1 := step localhost JSONText.parse c (SourceError 0 false) in
  let c2 := fold_left (step localhost JSONText.parse)
              [RotateZ; SourceOpen 0; ResetDevice] c1 in
  es_readyState <$> sources (world c1) !! 0 = Some CLOSED
  /\ calls (world c1) = CloseEventSource 0 :: calls (world c)
  /\ open_sources (world c1) = []
  /\ connectionError (app c1) = Some "Connection could not be established"
  /\ v_errorText (render (app c1)) = Some "Connection could not be established"
  /\ created (calls (world c2)) = created (calls (world c))
  /\ open_sources (world c2) = [].
Proof.
  apply (transport_error_closes_and_reports localhost JSONText.parse [SourceOpen 0]
           [RotateZ; SourceOpen 0; ResetDevice] 0 false
           {| es_url := localhost +:+ "/events"; es_readyState := OPEN |}).
  - vm_compute; reflexivity.
  - reflexivity.
  - intros H; repeat (apply elem_of_cons in H as [H | H]; [discriminate|]).
    inversion H.
Defined.

(** ** The URL in the text field and the URL of the stream *)

(** C10. "Cancel and reset" puts the page origin in [connectionUrl] and
    closes the dialog.  It makes no transport call and leaves every
    EventSource, the one in state and the connection error as they were,
    so the stream keeps the endpoint it was opened with; a reset of the
    device or an upload made next goes to the page origin. *)
Theorem cancel_and_reset_keeps_the_stream
    (origin : string) (JSON_parse : string -> JS.Completion JS.Value)
    (events : list Event) (file : string) :
  let c := run origin JSON_parse events in
  let c1 := step origin JSON_parse c CancelAndReset in
  let next := length (requests (world c)) in
  connectionUrl (app c1) = origin
  /\ connectionDialogOpen (app c1) = false
  /\ world c1 = world c
  /\ eventSource (app c1) = eventSource (app c)
  /\ connectionError (app c1) = connectionError (app c)
  /\ calls (world (step origin JSON_parse c1 ResetDevice))
     = Fetch next "GET" (origin +:+ "/reset") :: calls (world c)
  /\ calls (world (step origin JSON_parse c1 (FileChange (Some file))))
     = Fetch next "POST" (origin +:+ "/uploadModel") :: calls (world c).
Proof.
  intros c c1 next.
  pose proof (quiescent_run origin JSON_parse events) as Q; fold c in Q.
  pose proof (quiescent_step origin JSON_parse c CancelAndReset Q) as Q1; fold c1 in Q1.
  assert (store c1 = (onCancelAndReset origin (app c), world c)) as Hc1.
  { unfold c1; rewrite step_store by (exact Q || discriminate); reflexivity. }
  unfold world, app; rewrite !step_store by (exact Q1 || discriminate).
  rewrite Hc1; repeat split; reflexivity.
Qed.

(** The stream stays on the applied endpoint while the text field, and
    with it the next requests, go back to the page origin. *)
Example cancel_after_apply :
  let c := run localhost JSONText.parse
             [ConnectionUrlInput "http://device.local"; SetAndUse; SourceOpen 1;
              ConnectionUrlInput "http://other.local"; CancelAndReset; ResetDevice] in
  open_sources (world c)
    = [{| es_url := "http://device.local/events"; es_readyState := OPEN |}]
  /\ connectionUrl (app c) = localhost
  /\ head (calls (world c)) = Some (Fetch 0 "GET" "http://localhost:5173/reset").
Proof. vm_compute; repeat split; reflexivity. Qed.

(** ** Uploading a model *)

(** C9, run on the code.  The upload goes to [connectionUrl/uploadModel].
    A response sets [model] to [connectionUrl/model.glb] unless its status
    is 404, and a 404 changes nothing.  A request that fails without a
    response changes no state either, but the rejection is not caught:
    [.catch()] is given no handler, and the browser reports an unhandled
    rejection. *)
Theorem upload_outcomes
    (origin : string) (JSON_parse : string -> JS.Completion JS.Value)
    (events : list Event) (file : string) (status : nat) (err : JS.Error) :
  let c := run origin JSON_parse events in
  let url := connectionUrl (app c) in
  let request := length (requests (world c)) in
  let c1 := step origin JSON_parse c (FileChange (Some file)) in
  let answered := step origin JSON_parse c1 (Response request (JS.Fulfilled status)) in
  let failed := step origin JSON_parse c1 (Response request (JS.Rejected err)) in
  calls (world c1) = Fetch request "POST" (url +:+ "/uploadModel") :: calls (world c)
  /\ app c1 = app c
  /\ app answered = (if Nat.eqb status 404 then app c
                     else setModel (Some (url +:+ "/model.glb")) (app c))
  /\ console (world answered) = console (world c)
  /\ app failed = app c
  /\ render (app failed) = render (app c)
  /\ console (world failed) = UnhandledRejection err :: console (world c).
Proof.
  intros c url request c1 answered failed.
  pose proof (quiescent_run origin JSON_parse events) as Q; fold c in Q.
  pose proof (quiescent_step origin JSON_parse c (FileChange (Some file)) Q) as Q1;
    fold c1 in Q1.
  assert (store c1 =
            (app c, fetch "POST" (url +:+ "/uploadModel") (Some file) (UploadChain url)
                      (world c))) as Hc1.
  { unfold c1; rewrite step_store by (exact Q || discriminate); reflexivity. }
  assert (forall outcome,
            store (step origin JSON_parse c1 (Response request outcome)) =
              uploadChain url outcome
                (app c, with_requests (alter settle_request request)
                          (fetch "POST" (url +:+ "/uploadModel") (Some file)
                             (UploadChain url) (world c)))) as Hsettle.
  { intros outcome; rewrite step_store by (exact Q1 || discriminate).
    rewrite Hc1; simpl.
    rewrite lookup_app_r by (unfold request; lia).
    replace (request - length (requests (world c))) with 0 by (unfold request; lia).
    reflexivity. }
  unfold world, app.
  unfold answered, failed; rewrite !Hsettle, Hc1.
  unfold uploadChain; simpl.
  destruct (Nat.eqb status 404); repeat split; reflexivity.
Qed.

(** * Further properties of the component *)

(** ** The reset request *)

(** X1. "Reset device rotation" sends [GET connectionUrl/reset] and touches
    neither the state nor any EventSource.  Whatever answer comes, the
    state stays as it was; a request that fails is caught by the handler
    given to [.catch], which writes the error to the console, so no
    rejection is left unhandled. *)
Theorem reset_request_is_logged_only
    (origin : string) (JSON_parse : string -> JS.Completion JS.Value)
    (events : list Event) (status : nat) (err : JS.Error) :
  let c := run origin JSON_parse events in
  let request := length (requests (world c)) in
  let c1 := step origin JSON_parse c ResetDevice in
  let answered := step origin JSON_parse c1 (Response request (JS.Fulfilled status)) in
  let failed := step origin JSON_parse c1 (Response request (JS.Rejected err)) in
  calls (world c1)
    = Fetch request "GET" (connectionUrl (app c) +:+ "/reset") :: calls (world c)
  /\ app c1 = app c
  /\ sources (world c1) = sources (world c)
  /\ app answered = app c
  /\ console (world answered) = console (world c)
  /\ app failed = app c
  /\ console (world failed) = ConsoleError err :: console (world c).
Proof.
  intros c request c1 answered failed.
  pose proof (quiescent_run origin JSON_parse events) as Q; fold c in Q.
  pose proof (quiescent_step origin JSON_parse c ResetDevice Q) as Q1; fold c1 in Q1.
  assert (store c1 =
            (app c, fetch "GET" (connectionUrl (app c) +:+ "/reset") None ResetChain
                      (world c))) as Hc1.
  { unfold c1; rewrite step_store by (exact Q || discriminate); reflexivity. }
  assert (forall outcome,
            store (step origin JSON_parse c1 (Response request outcome)) =
              resetChain outcome
                (app c, with_requests (alter settle_request request)
                          (fetch "GET" (connectionUrl (app c) +:+ "/reset") None
                             ResetChain (world c)))) as Hsettle.
  { intros outcome; rewrite step_store by (exact Q1 || discriminate).
    rewrite Hc1; simpl.
    rewrite lookup_app_r by (unfold request; lia).
    replace (request - length (requests (world c))) with 0 by (unfold request; lia).
    reflexivity. }
  unfold world, app.
  unfold answered, failed; rewrite !Hsettle, Hc1.
  repeat split; reflexivity.
Qed.

(** ** The model dialog *)


(** ** Applying a configuration *)


(** ** Payloads the listener does not check *)



(** X5. A payload on which [JSON.parse] throws costs one uncaught error and
    nothing else: the state, the rotation in it and every EventSource stay
    as they were, the connection stays live, and the next well-formed
    sample on it is applied as usual. *)
Theorem stream_survives_a_bad_payload
    (origin : string) (JSON_parse : string -> JS.Completion JS.Value)
    (events : list Event) (source : nat) (es : EventSourceObj)
    (bad good : string) (err : JS.Error) (data : JS.Value) (x y z : float) :
  let c := run origin JSON_parse events in
  let c1 := step origin JSON_parse c (SourceData source bad) in
  let c2 := step origin JSON_parse c1 (SourceData source good) in
  sources (world c) !! source = Some es ->
  is_closed (es_readyState es) = false ->
  JSON_parse bad = JS.Throw err ->
  JSON_parse good = JS.Normal data ->
  as_GyroData data = Some {| gyro_x := x; gyro_y := y; gyro_z := z |} ->
  app c1 = app c
  /\ sources (world c1) = sources (world c)
  /\ calls (world c1) = calls (world c)
  /\ console (world c1) = UncaughtError err :: console (world c)
  /\ app c2 = setRotation (JS.Num x, JS.Num z, JS.Num y) (app c).
Proof.
  intros c c1 c2 Hsrc Hlive Hbad Hgood Hdata.
  pose proof (quiescent_run origin JSON_parse events) as Q; fold c in Q.
  pose proof (quiescent_step origin JSON_parse c (SourceData source bad) Q) as Q1;
    fold c1 in Q1.
  assert (store c1 = (app c, report (UncaughtError err) (world c))) as Hc1.
  { unfold c1; rewrite step_store by (exact Q || discriminate).
    simpl; unfold when_live; fold (world c); rewrite Hsrc, Hlive.
    unfold dataListener; rewrite Hbad; reflexivity. }
  assert (app c1 = app c) as Ha by (unfold app at 1; rewrite Hc1; reflexivity).
  assert (world c1 = report (UncaughtError err) (world c)) as Hw
    by (unfold world at 1; rewrite Hc1; reflexivity).
  destruct (as_GyroData_Some _ _ Hdata) as (fields & -> & Hx & Hy & Hz);
    simpl in Hx, Hy, Hz.
  assert (store c2 = (setRotation (JS.Num x, JS.Num z, JS.Num y) (app c1), world c1))
    as Hc2.
  { apply (data_event_store origin JSON_parse c1 source es good fields); auto.
    rewrite Hw; exact Hsrc. }
  assert (app c2 = setRotation (JS.Num x, JS.Num z, JS.Num y) (app c)) as Ha2
    by (unfold app at 1; rewrite Hc2, Ha; reflexivity).
  rewrite Hw, Ha, Ha2; repeat split; reflexivity.
Qed.

Lemma stream_survives_a_bad_payload_witness :
  let c := run localhost JSONText.parse [SourceOpen 0] in
  let c1 := step localhost JSONText.parse c (SourceData 0 "{") in
  let c2 := step localhost JSONText.parse c1 (SourceData 0 (sample_text "1.0" "2.0" "3.0")) in
  app c1 = app c
  /\ sources (world c1) = sources (world c)
  /\ calls (world c1) = calls (world c)
  /\ console (world c1) = UncaughtError JS.SyntaxError :: console (world c)
  /\ app c2 = setRotation (JS.Num 1, JS.Num 3, JS.Num 2) (app c).
Proof.
  apply (stream_survives_a_bad_payload localhost JSONText.parse [SourceOpen 0] 0
           {| es_url := localhost +:+ "/events"; es_readyState := OPEN |}
           "{" (sample_text "1.0" "2.0" "3.0") JS.SyntaxError
           (JS.Obj [("x", JS.Num 1); ("y", JS.Num 2); ("z", JS.Num 3)]) 1 2 3);
    vm_compute; reflexivity.
Defined.

(** ** Offsets and telemetry do not meet *)

(** The seven menu items that change the user offset. *)
Definition is_offset_action (e : Event) : bool :=
  match e with
  | RotateX | RotateY | RotateZ
  | ScaleUpTenth | ScaleUpOne | ScaleDownTenth | ScaleDownOne => true
  | _ => false
  end.

(** What an EventSource can fire. *)
Definition is_source_event (e : Event) : bool :=
  match e with
  | SourceOpen _ | SourceError _ _ | SourceData _ _ => true
  | _ => false
  end.

(** The piece of state an offset action writes: an index of
    [modelRotation], or [modelScale]. *)
Inductive Slot := RotationIndex (i : nat) | Scale.

Definition offset_slot (e : Event) : option Slot :=
  match e with
  | RotateX => Some (RotationIndex 0)
  | RotateY => Some (RotationIndex 1)
  | RotateZ => Some (RotationIndex 2)
  | ScaleUpTenth | ScaleUpOne | ScaleDownTenth | ScaleDownOne => Some Scale
  | _ => None
  end.

Lemma step_commutes
    (origin : string) (JSON_parse : string -> JS.Completion JS.Value)
    (c : Config) (a b : Event) :
  quiescent c -> a <> SetAndUse -> b <> SetAndUse ->
  handle origin JSON_parse b (handle origin JSON_parse a (store c))
    = handle origin JSON_parse a (handle origin JSON_parse b (store c)) ->
  step origin JSON_parse (step origin JSON_parse c a) b
    = step origin JSON_parse (step origin JSON_parse c b) a.
Proof.
  intros Q Ha Hb H.
  rewrite (step_idle origin JSON_parse (step origin JSON_parse c a) b)
    by (auto using quiescent_step).
  rewrite (step_idle origin JSON_parse (step origin JSON_parse c b) a)
    by (auto using quiescent_step).
  rewrite !step_store by assumption.
  rewrite H; reflexivity.
Qed.

(** X6. An offset action and an event of the stream commute: the menu items
    write [modelRotation] and [modelScale] only, the listeners write
    [rotation], [connectionError] and the EventSource only, so either order
    leaves the same state and the same browser objects. *)
Theorem offset_actions_commute_with_the_stream
    (origin : string) (JSON_parse : string -> JS.Completion JS.Value)
    (events : list Event) (action event : Event) :
  let c := run origin JSON_parse events in
  is_offset_action action = true ->
  is_source_event event = true ->
  step origin JSON_parse (step origin JSON_parse c action) event
    = step origin JSON_parse (step origin JSON_parse c event) action.
Proof.
  intros c Ha He.
  apply step_commutes;
    [apply quiescent_run | intros ->; discriminate | intros ->; discriminate |].
  destruct (store c) as [st w].
  destruct action; try discriminate; destruct event; try discriminate;
    simpl; guard_cases; try reflexivity;
    unfold dataListener;
    (destruct (JSON_parse data) as [v|]; [simpl|reflexivity]);
    (destruct (JS.get v "x"); [simpl|reflexivity]);
    (destruct (JS.get v "z"); [simpl|reflexivity]);
    (destruct (JS.get v "y"); reflexivity).
Qed.

Lemma offset_actions_commute_with_the_stream_witness :
  let c := run localhost JSONText.parse [SourceOpen 0] in
  step localhost JSONText.parse (step localhost JSONText.parse c ScaleDownTenth)
    (SourceData 0 (sample_text "1.0" "2.0" "3.0"))
  = step localhost JSONText.parse
      (step localhost JSONText.parse c (SourceData 0 (sample_text "1.0" "2.0" "3.0")))
      ScaleDownTenth.
Proof.
  apply (offset_actions_commute_with_the_stream localhost JSONText.parse [SourceOpen 0]
           ScaleDownTenth (SourceData 0 (sample_text "1.0" "2.0" "3.0")));
    reflexivity.
Defined.

(** X7. Two offset actions that write different slots commute: a turn
    about one axis with a turn about another, and any turn with any scale
    action.  (Two actions on the same slot are two rounded additions, whose
    order can matter.) *)
Theorem offset_actions_on_different_slots_commute
    (origin : string) (JSON_parse : string -> JS.Completion JS.Value)
    (events : list Event) (a b : Event) (sa sb : Slot) :
  let c := run origin JSON_parse events in
  offset_slot a = Some sa ->
  offset_slot b = Some sb ->
  sa <> sb ->
  step origin JSON_parse (step origin JSON_parse c a) b
    = step origin JSON_parse (step origin JSON_parse c b) a.
Proof.
  intros c Ha Hb Hne.
  apply step_commutes;
    [apply quiescent_run | intros ->; discriminate | intros ->; discriminate |].
  destruct (store c) as [st w].
  destruct a; try discriminate; destruct b; try discriminate;
    simpl in Ha, Hb; injection Ha as <-; injection Hb as <-;
    try contradiction;
    unfold handle, lift; cbn [fst snd]; f_equal;
    unfold onRotateX, onRotateY, onRotateZ, onScaleUpTenth, onScaleUpOne,
      onScaleDownTenth, onScaleDownOne, setModelRotation, setModelScale; simpl;
    destruct (modelRotation st) as [[p0 p1] p2]; reflexivity.
Qed.

Lemma offset_actions_on_different_slots_commute_witness :
  let c := run localhost JSONText.parse [RotateX] in
  step localhost JSONText.parse (step localhost JSONText.parse c RotateY) ScaleUpOne
  = step localhost JSONText.parse (step localhost JSONText.parse c ScaleUpOne) RotateY.
Proof.
  apply (offset_actions_on_different_slots_commute localhost JSONText.parse [RotateX]
           RotateY ScaleUpOne (RotationIndex 1) Scale);
    [reflexivity | reflexivity | discriminate].
Defined.

(** On the same slot the order shows: from the initial scale 1, up a tenth
    then down one leaves [0.10000000000000009], down one then up a tenth
    leaves [0.1]. *)
Example scale_actions_need_not_commute :
  let up_down := modelScale (app (run localhost JSONText.parse [ScaleUpTenth; ScaleDownOne])) in
  let down_up := modelScale (app (run localhost JSONText.parse [ScaleDownOne; ScaleUpTenth])) in
  up_down = 0x1.99999999999ap-4%float /\ down_up = tenth /\ up_down <> down_up.
Proof.
  repeat split; try (vm_compute; reflexivity).
  apply float_neq; vm_compute; reflexivity.
Qed.

(** ** The effect and its own dependencies *)

(** X8. The effect lists [eventSource] among its dependencies and sets it,
    so it triggers itself; it still comes to rest.  From any configuration,
    two renders reach one that a further render leaves alone, more renders
    change nothing, and on the way at most one EventSource is made. *)
Theorem connection_effect_comes_to_rest (c : Config) (extra : nat) :
  render_loop (extra + 2) c = settle c
  /\ commit (settle c) = settle c
  /\ (settle c = c \/ changeConnectionUrl (app (settle c)) = false)
  /\ length (sources (world (settle c))) <= S (length (sources (world c))).
Proof.
  split; [apply render_loop_settles|].
  split; [apply commit_settle|].
  destruct (decide (lastDeps c = Some (deps (fst (store c))))) as [E | E].
  - assert (commit c = c) as Hc.
    { unfold commit; destruct (decide _); [reflexivity | contradiction]. }
    assert (settle c = c) as -> by (unfold settle; simpl; rewrite !Hc; reflexivity).
    split; [left; reflexivity | lia].
  - rewrite settle_apply by exact E; unfold app, world; cbn [store].
    split; [right; apply connectionEffect_change|].
    destruct (store c) as [st w]; unfold connectionEffect.
    destruct (changeConnectionUrl st); [|simpl; lia].
    destruct (eventSource st); simpl; rewrite length_app, ?length_alter; simpl; lia.
Qed.

(** ** The connection error *)

Definition connection_failed : string := "Connection could not be established".

Lemma handle_connectionError
    (origin : string) (JSON_parse : string -> JS.Completion JS.Value)
    (e : Event) (s : Store) :
  connectionError (fst (handle origin JSON_parse e s)) = connectionError (fst s)
  \/ connectionError (fst (handle origin JSON_parse e s)) = Some connection_failed.
Proof.
  destruct s as [st w].
  destruct e; simpl; guard_cases; auto.
  - destruct file; auto.
  - destruct (dataListener JSON_parse data st) as [st'|] eqn:E; [|auto].
    destruct (dataListener_sets_rotation JSON_parse data st st' E) as [r ->]; auto.
  - destruct (resetChain_frame outcome
                (st, with_requests (alter settle_request request) w)) as [-> _]; auto.
  - destruct (uploadChain_frame url outcome
                (st, with_requests (alter settle_request request) w)) as [[-> | ->] _];
      auto.
Qed.

Lemma step_connectionError
    (origin : string) (JSON_parse : string -> JS.Completion JS.Value)
    (c : Config) (e : Event) :
  quiescent c ->
  connectionError (app (step origin JSON_parse c e)) = connectionError (app c)
  \/ connectionError (app (step origin JSON_parse c e)) = None
  \/ connectionError (app (step origin JSON_parse c e)) = Some connection_failed.
Proof.
  intros Q; destruct (apply_or_not e) as [-> | Hne].
  - right; left; unfold app; rewrite apply_store by exact Q; reflexivity.
  - unfold app; rewrite step_store by assumption.
    destruct (handle_connectionError origin JSON_parse e (store c)); auto.
Qed.

(** X9. The connection error in state is only ever absent or the one fixed
    message, and the menu bar shows exactly what is in state. *)
Theorem connection_error_is_absent_or_the_message
    (origin : string) (JSON_parse : string -> JS.Completion JS.Value)
    (events : list Event) :
  let st := app (run origin JSON_parse events) in
  (connectionError st = None \/ connectionError st = Some connection_failed)
  /\ v_errorText (render st) = connectionError st.
Proof.
  intros st.
  assert (connectionError st = None \/ connectionError st = Some connection_failed) as H.
  { unfold st, run.
    assert (forall c, quiescent c ->
              (connectionError (app c) = None
               \/ connectionError (app c) = Some connection_failed) ->
              connectionError (app (fold_left (step origin JSON_parse) events c)) = None
              \/ connectionError (app (fold_left (step origin JSON_parse) events c))
                 = Some connection_failed) as Hall.
    { induction events as [|e events IH]; intros c Q Hc; simpl; [exact Hc|].
      apply IH; [apply quiescent_step, Q|].
      destruct (step_connectionError origin JSON_parse c e Q) as [-> | [-> | ->]]; auto. }
    apply Hall; [apply quiescent_mount|].
    left; unfold app; rewrite mount_store; reflexivity. }
  split; [exact H|].
  unfold render; cbn [v_errorText]; destruct H as [-> | ->]; reflexivity.
Qed.

(** ** Which EventSource the state holds *)

(** The EventSource in state is the newest one, made for the newest URL. *)
Definition tracks_newest (c : Config) : Prop :=
  exists n es,
    length (sources (world c)) = S n
    /\ eventSource (app c) = Some n
    /\ sources (world c) !! n = Some es
    /\ head (created (calls (world c))) = Some (es_url es).

Lemma touch_url (e : Event) (w w' : World) (i : nat) :
  Touch e w w' -> es_url <$> sources w' !! i = es_url <$> sources w !! i.
Proof.
  intros T; destruct T as [Hs _ | ? ? ? Hs _ | source ? _ _ _ Hs _
                           | source ? ? r _ _ _ Hs _]; rewrite Hs; try reflexivity.
  - destruct (decide (source = i)) as [-> | Hne].
    + rewrite list_lookup_alter_eq; destruct (sources w !! i); reflexivity.
    + rewrite list_lookup_alter_ne by exact Hne; reflexivity.
  - destruct (decide (source = i)) as [-> | Hne].
    + rewrite !list_lookup_alter_eq; destruct (sources w !! i); reflexivity.
    + rewrite !list_lookup_alter_ne by exact Hne; reflexivity.
Qed.

Lemma tracks_newest_step
    (origin : string) (JSON_parse : string -> JS.Completion JS.Value)
    (c : Config) (e : Event) :
  quiescent c -> tracks_newest c -> tracks_newest (step origin JSON_parse c e).
Proof.
  intros Q (n & es & Hlen & Hcur & Hes & Hhead).
  destruct (apply_or_not e) as [-> | Hne].
  - exists (S n), {| es_url := connectionUrl (app c) +:+ "/events";
                     es_readyState := CONNECTING |}.
    unfold app, world; rewrite apply_store by exact Q.
    unfold close_current; rewrite Hcur; simpl.
    rewrite length_app, !length_alter, Hlen; simpl.
    repeat split; try reflexivity; try lia.
    rewrite lookup_app_r by (rewrite length_alter; lia).
    rewrite length_alter, Hlen, Nat.sub_diag; reflexivity.
  - pose proof (handle_touch origin JSON_parse e (store c)) as T.
    pose proof (touch_url e _ _ n T) as Hurl; fold (world c) in Hurl.
    rewrite Hes in Hurl; simpl in Hurl.
    destruct (sources (snd (handle origin JSON_parse e (store c))) !! n) as [es'|] eqn:E;
      [|discriminate].
    injection Hurl as Hurl.
    exists n, es'; unfold app, world; rewrite step_store by assumption.
    rewrite (touch_length _ _ _ T), handle_eventSource, (touch_created _ _ _ T), Hurl.
    auto.
Qed.

(** X10. The EventSource in state is always the newest one ever made, its
    URL is the one the last connection was opened with, and every older
    EventSource is closed: the [close] of the next apply action reaches
    the one connection that can still be open. *)
Theorem state_holds_the_newest_source
    (origin : string) (JSON_parse : string -> JS.Completion JS.Value)
    (events : list Event) :
  let c := run origin JSON_parse events in
  exists n es,
    length (sources (world c)) = S n
    /\ eventSource (app c) = Some n
    /\ sources (world c) !! n = Some es
    /\ head (created (calls (world c))) = Some (es_url es)
    /\ forall i old, i < n -> sources (world c) !! i = Some old ->
                     is_closed (es_readyState old) = true.
Proof.
  intros c.
  assert (tracks_newest c) as (n & es & Hlen & Hcur & Hes & Hhead).
  { unfold c, run.
    assert (forall k, quiescent k -> tracks_newest k ->
              tracks_newest (fold_left (step origin JSON_parse) events k)) as Hall.
    { induction events as [|e events IH]; intros k Q T; simpl; [exact T|].
      apply IH; [apply quiescent_step, Q | apply tracks_newest_step; assumption]. }
    apply Hall; [apply quiescent_mount|].
    exists 0, {| es_url := origin +:+ "/events"; es_readyState := CONNECTING |}.
    unfold app, world; rewrite mount_store; repeat split; reflexivity. }
  exists n, es; repeat split; try assumption.
  intros i old Hi Hold.
  destruct (is_closed (es_readyState old)) eqn:Hc; [reflexivity|].
  pose proof (quiescent_run origin JSON_parse events) as Q; fold c in Q.
  pose proof (q_live c Q i (q_open c Q i old Hold Hc)) as Ei.
  rewrite Hcur in Ei; injection Ei as ->; lia.
Qed.

(** ** An upload answered late *)







(** ** Opening, and the error that stays *)

(** X12. The [open] listener only logs.  An [open] event on a connection
    that is not closed leaves the whole state as it was (in particular it
    clears no connection error: that is done when a configuration is
    applied), writes one line to the console and makes no transport
    call. *)
Theorem open_event_only_logs
    (origin : string) (JSON_parse : string -> JS.Completion JS.Value)
    (events : list Event) (source : nat) (es : EventSourceObj) :
  let c := run origin JSON_parse events in
  let c1 := step origin JSON_parse c (SourceOpen source) in
  sources (world c) !! source = Some es ->
  is_closed (es_readyState es) = false ->
  app c1 = app c
  /\ console (world c1) = ConsoleLog "Connection established" :: console (world c)
  /\ calls (world c1) = calls (world c)
  /\ requests (world c1) = requests (world c)
  /\ sources (world c1) !! source = Some {| es_url := es_url es; es_readyState := OPEN |}.
Proof.
  intros c c1 Hsrc Hlive.
  pose proof (quiescent_run origin JSON_parse events) as Q; fold c in Q.
  assert (store c1 =
            (app c, report (ConsoleLog "Connection established")
                      (with_sources (alter (set_readyState OPEN) source) (world c))))
    as Hc1.
  { unfold c1; rewrite step_store by (exact Q || discriminate).
    simpl; unfold when_live; fold (world c); rewrite Hsrc, Hlive; reflexivity. }
  assert (app c1 = app c) as -> by (unfold app at 1; rewrite Hc1; reflexivity).
  unfold world at 1 3 5 7; rewrite Hc1; simpl.
  repeat split; try reflexivity.
  rewrite list_lookup_alter_eq; fold (world c); rewrite Hsrc; reflexivity.
Qed.

Lemma open_event_only_logs_witness :
  let c := run localhost JSONText.parse [] in
  let c1 := step localhost JSONText.parse c (SourceOpen 0) in
  app c1 = app c
  /\ console (world c1) = ConsoleLog "Connection established" :: console (world c)
  /\ calls (world c1) = calls (world c)
  /\ requests (world c1) = requests (world c)
  /\ sources (world c1) !! 0
     = Some {| es_url := es_url {| es_url := localhost +:+ "/events";
                                   es_readyState := CONNECTING |};
               es_readyState := OPEN |}.
Proof.
  apply (open_event_only_logs localhost JSONText.parse [] 0
           {| es_url := localhost +:+ "/events"; es_readyState := CONNECTING |});
    vm_compute; reflexivity.
Defined.

(** X13. Once the connection error is shown it stays: no event but the
    apply action takes it away, whatever the stream, the menu, the dialogs
    or the requests do. *)
Theorem connection_error_stays_until_apply
    (origin : string) (JSON_parse : string -> JS.Completion JS.Value)
    (events later : list Event) :
  let c := run origin JSON_parse events in
  let c' := fold_left (step origin JSON_parse) later c in
  connectionError (app c) = Some connection_failed ->
  SetAndUse ∉ later ->
  connectionError (app c') = Some connection_failed
  /\ v_errorText (render (app c')) = Some connection_failed.
Proof.
  intros c c' Herr Hno.
  assert (connectionError (app c') = Some connection_failed) as H.
  { unfold c'.
    pose proof (quiescent_run origin JSON_parse events) as Q; fold c in Q.
    clearbody c; clear c'.
    revert c Q Herr; induction later as [|e later IH]; intros c Q Herr; simpl;
      [exact Herr|].
    apply not_elem_of_cons in Hno as [Hne Hno].
    apply IH; [exact Hno | apply quiescent_step, Q |].
    unfold app; rewrite step_store by (exact Q || congruence).
    destruct (handle_connectionError origin JSON_parse e (store c)) as [-> | ->];
      [exact Herr | reflexivity]. }
  split; [exact H|].
  unfold render; cbn [v_errorText]; rewrite H; reflexivity.
Qed.

Lemma connection_error_stays_until_apply_witness :
  let c := run localhost JSONText.parse [SourceError 0 false] in
  let c' := fold_left (step localhost JSONText.parse)
              [SourceOpen 0; RotateX; CancelAndReset; ResetDevice] c in
  connectionError (app c') = Some connection_failed
  /\ v_errorText (render (app c')) = Some connection_failed.
Proof.
  apply (connection_error_stays_until_apply localhost JSONText.parse
           [SourceError 0 false] [SourceOpen 0; RotateX; CancelAndReset; ResetDevice]).
  - vm_compute; reflexivity.
  - intros H; repeat (apply elem_of_cons in H as [H | H]; [discriminate|]).
    inversion H.
Defined.

(** ** The text field is the endpoint of the requests *)

(** X14. Typing in the URL field makes no transport call and leaves the
    stream alone, yet the typed text is used at once by everything but the
    stream: the next reset goes to [value/reset], the next upload to
    [value/uploadModel] with [value] kept for the answer, and the next
    apply action connects to [value/events]. *)
Theorem typed_url_is_used_before_it_is_applied
    (origin : string) (JSON_parse : string -> JS.Completion JS.Value)
    (events : list Event) (value file : string) :
  let c := run origin JSON_parse events in
  let c1 := step origin JSON_parse c (ConnectionUrlInput value) in
  let next := length (requests (world c)) in
  world c1 = world c
  /\ eventSource (app c1) = eventSource (app c)
  /\ v_connectionUrlInput (render (app c1)) = value
  /\ calls (world (step origin JSON_parse c1 ResetDevice))
     = Fetch next "GET" (value +:+ "/reset") :: calls (world c)
  /\ calls (world (step origin JSON_parse c1 (FileChange (Some file))))
     = Fetch next "POST" (value +:+ "/uploadModel") :: calls (world c)
  /\ (rq_chain <$> requests (world (step origin JSON_parse c1 (FileChange (Some file))))
        !! next) = Some (UploadChain value)
  /\ head (created (calls (world (step origin JSON_parse c1 SetAndUse))))
     = Some (value +:+ "/events").
Proof.
  intros c c1 next.
  pose proof (quiescent_run origin JSON_parse events) as Q; fold c in Q.
  pose proof (quiescent_step origin JSON_parse c (ConnectionUrlInput value) Q) as Q1;
    fold c1 in Q1.
  assert (store c1 = (setConnectionUrl value (app c), world c)) as Hc1.
  { unfold c1; rewrite step_store by (exact Q || discriminate); reflexivity. }
  assert (app c1 = setConnectionUrl value (app c)) as Ha
    by (unfold app at 1; rewrite Hc1; reflexivity).
  assert (world c1 = world c) as Hw by (unfold world at 1; rewrite Hc1; reflexivity).
  split; [exact Hw|].
  split; [rewrite Ha; reflexivity|].
  split; [rewrite Ha; reflexivity|].
  assert (forall e, e <> SetAndUse ->
            world (step origin JSON_parse c1 e)
            = snd (handle origin JSON_parse e (setConnectionUrl value (app c), world c)))
    as Hnext.
  { intros e He; unfold world at 1; rewrite step_store by assumption.
    rewrite Hc1; reflexivity. }
  rewrite !Hnext by discriminate; simpl.
  split; [reflexivity|].
  split; [reflexivity|].
  split.
  { rewrite lookup_app_r by (unfold next; lia).
    replace (next - length (requests (world c))) with 0 by (unfold next; lia).
    reflexivity. }
  unfold world at 1; rewrite apply_store by exact Q1.
  rewrite Ha; reflexivity.
Qed.

(** ** Which geometry is shown *)




